(** * Verification of python-twitter: status-length estimation, URL
    detection, media-file validation and the response-object models.

    Definitions come first, module by module:
    - [Sre]: the part of Python's backtracking regular-expression engine
      that [twitter_utils.URL_REGEXP] exercises;
    - [TwitterUtils]: the label list, the pattern,
      [calc_expected_status_length] and [is_url] of
      [twitter/twitter_utils.py];
    - [MediaFile]: [parse_media_file] of the same file, over a model of
      the file system and of the stream objects;
    - [Models]: [twitter/models.py];
    - [SreSpec] and [ModelsSpec]: the notions the statements use.
    The proofs follow in [SreFacts], [TwitterUtilsFacts],
    [MediaFileFacts] and [ModelsFacts]. *)

From Stdlib Require Import ZArith NArith List String Ascii Bool Lia.
From stdpp Require Import gmap strings list fin_maps sorting.
Import ListNotations.

Set Warnings "-register-all".

(** A Python 3 [str] is a sequence of Unicode code points; [len] counts
    code points. *)
Definition pystr := list N.

(** Source literals are UTF-8 (the file declares [# encoding: utf-8]);
    [utf8] decodes a literal into its code points. *)
Fixpoint utf8_go (bs : list N) (need : nat) (acc : N) : pystr :=
  match bs with
  | [] => []
  | b :: bs' =>
      match need with
      | O =>
          if (b <? 128)%N then b :: utf8_go bs' 0 0%N
          else if (b <? 224)%N then utf8_go bs' 1 (b - 192)%N
          else if (b <? 240)%N then utf8_go bs' 2 (b - 224)%N
          else utf8_go bs' 3 (b - 240)%N
      | S O => (acc * 64 + (b - 128))%N :: utf8_go bs' 0 0%N
      | S n => utf8_go bs' n (acc * 64 + (b - 128))%N
      end
  end.

Definition utf8 (s : string) : pystr :=
  utf8_go (map N_of_ascii (list_ascii_of_string s)) 0 0%N.

(** ** Exceptions *)

(** Modelled from the spec: the class [TwitterError] is imported from the
    package and is not among the sources; the spec describes it as one
    structured error kind that carries a human-readable message.  The
    other constructors are the built-in exceptions that the modelled
    operations raise. *)
Inductive exn :=
| TwitterError (message : string)
| OSError                         (* open() of a missing file *)
| URLError                        (* urlopen() of an unreachable URL *)
| ValueError                      (* I/O operation on a closed file *)
| UnsupportedOperation            (* seek() on a stream that cannot seek *)
| AttributeError                  (* the object lacks the attribute *)
| TypeError.                      (* the object is of the wrong kind *)

Inductive result (A : Type) :=
| Ok (a : A)
| Raise (e : exn).
Arguments Ok {A} a.
Arguments Raise {A} e.

Module Sre.

(** ** Character tests *)

Definition in_range (lo hi c : N) : bool := (lo <=? c)%N && (c <=? hi)%N.

Definition ascii_lower (c : N) : N :=
  if in_range 65 90 c then (c + 32)%N else c.

Definition ascii_upper (c : N) : N :=
  if in_range 97 122 c then (c - 32)%N else c.

(** [\w] on ASCII: letters, digits and the underscore. *)
Definition ascii_word (c : N) : bool :=
  in_range 97 122 c || in_range 65 90 c || in_range 48 57 c || (c =? 95)%N.

(** The only code points above 127 that ignore-case matching identifies
    with an ASCII letter: U+0130 and U+0131 with [i], U+017F with [s],
    U+212A with [k]. *)
Definition ascii_equiv (p : N) : option N :=
  if (p =? 304)%N || (p =? 305)%N then Some 105%N
  else if (p =? 383)%N then Some 115%N
  else if (p =? 8490)%N then Some 107%N
  else None.

(** One member of a character set [[...]]. *)
Inductive item :=
| Category_word                (* \w *)
| ItemLit (c : N)
| ItemRange (lo hi : N).

(** The pattern operators that URL_REGEXP is built from.  [x+] is
    [Seq x (Star x)] and [x?] is [Branch x Empty]: the greedy order of
    attempts is the same. *)
Inductive regex :=
| Empty
| Literal (c : N)
| AnyNoNL                      (* . without DOTALL *)
| In (items : list item)
| AtBoundary                   (* \b *)
| Seq (r1 r2 : regex)
| Branch (r1 r2 : regex)
| Star (r : regex).

Definition Plus (r : regex) : regex := Seq r (Star r).
Definition Opt (r : regex) : regex := Branch r Empty.

Definition literals (s : pystr) : regex :=
  fold_right (fun c r => Seq (Literal c) r) Empty s.

(** [a|b|...]: the alternatives are tried in order.  The empty set
    [In []] never matches. *)
Fixpoint branches (rs : list regex) : regex :=
  match rs with
  | [] => In []
  | [r] => r
  | r :: rs' => Branch r (branches rs')
  end.

Section Engine.

(** The Unicode tables are not part of the repository.  They are only
    consulted for input code points above 127:
    [uni_word c] says whether [c] is alphanumeric, [uni_fold c] is the
    case-normalised form of [c] that ignore-case matching compares. *)
Variable uni_word : N -> bool.
Variable uni_fold : N -> N.

Definition is_word (c : N) : bool :=
  if (c <? 128)%N then ascii_word c else uni_word c.

Definition fold (c : N) : N :=
  if (c <? 128)%N then ascii_lower c else uni_fold c.

(** Ignore-case comparison of the pattern character [p] with the input
    character [c]. *)
Definition lit_match (p c : N) : bool :=
  if (c <? 128)%N then
    if (p <? 128)%N then (ascii_lower c =? ascii_lower p)%N
    else match ascii_equiv p with
         | Some a => (ascii_lower c =? a)%N
         | None => false
         end
  else (fold c =? fold p)%N.

(** Ignore-case membership: the set is compared with the lower-cased
    input character; a range counts a letter when it holds either case
    of it. *)
Definition item_match (it : item) (c : N) : bool :=
  match it with
  | Category_word => is_word (fold c)
  | ItemLit p => lit_match p c
  | ItemRange lo hi =>
      in_range lo hi (fold c) || in_range lo hi (ascii_upper (fold c))
  end.

Definition in_class (items : list item) (c : N) : bool :=
  existsb (fun it => item_match it c) items.

Definition next_is_word (s : pystr) : bool :=
  match s with
  | [] => false
  | c :: _ => is_word c
  end.

(** ** The backtracking matcher *)

(** What an attempt produces: the text left after the match, a failure
    (the caller backtracks), or the exhaustion of a loop budget. *)
Inductive outcome :=
| Matched (rest : pystr)
| Failed
| Exhausted.

Definition cont := bool -> pystr -> outcome.

(** The greedy loop of a repetition: one more iteration of [body] is
    tried before the loop is left through [k]; an iteration that consumed
    nothing is not repeated.  [n] bounds the number of iterations. *)
Fixpoint star_loop (body : bool -> pystr -> cont -> outcome) (k : cont)
    (n : nat) (pw : bool) (s : pystr) {struct n} : outcome :=
  match n with
  | O => Exhausted
  | S n' =>
      match body pw s
              (fun pw' s' =>
                 if (length s' <? length s)%nat
                 then star_loop body k n' pw' s' else Failed) with
      | Failed => k pw s
      | o => o
      end
  end.

(** [rmatch r pw s k] matches [r] at the front of [s]; [pw] says whether
    the character before [s] is a word character (false at the start of
    the string).  [k] is the rest of the pattern: it receives the state
    after [r] and returns the end of the whole match or fails, in which
    case [r] is re-entered for its next alternative. *)
Fixpoint rmatch (r : regex) (pw : bool) (s : pystr) (k : cont)
    {struct r} : outcome :=
  match r with
  | Empty => k pw s
  | Literal p =>
      match s with
      | c :: s' => if lit_match p c then k (is_word c) s' else Failed
      | [] => Failed
      end
  | AnyNoNL =>
      match s with
      | c :: s' => if (c =? 10)%N then Failed else k (is_word c) s'
      | [] => Failed
      end
  | In items =>
      match s with
      | c :: s' => if in_class items c then k (is_word c) s' else Failed
      | [] => Failed
      end
  | AtBoundary => if xorb pw (next_is_word s) then k pw s else Failed
  | Seq r1 r2 => rmatch r1 pw s (fun pw' s' => rmatch r2 pw' s' k)
  | Branch r1 r2 =>
      match rmatch r1 pw s k with
      | Failed => rmatch r2 pw s k
      | o => o
      end
  | Star r1 => star_loop (rmatch r1) k (S (length s)) pw s
  end.

(** The match of [r] at the front of [s]: the text it leaves. *)
Definition match_at (r : regex) (pw : bool) (s : pystr) : outcome :=
  rmatch r pw s (fun _ s' => Matched s').

(** [re.findall] for a pattern whose only group is the whole pattern: the
    matched substrings from left to right.  [skip] counts the characters
    of the last match that are still to be passed over; with [skip = 0]
    a match is tried at the current position, and the scan moves on by
    one character when there is none (or an empty one; URL_REGEXP has no
    empty match).  [None] stands for a matcher that exhausted a loop
    budget. *)
Fixpoint scan (r : regex) (pw : bool) (s : pystr) (skip : nat)
    : option (list pystr) :=
  let next n :=
    match s with
    | c :: s' => scan r (is_word c) s' n
    | [] => Some []
    end in
  match skip with
  | S n => next n
  | O =>
      match match_at r pw s with
      | Matched e =>
          let n := (length s - length e)%nat in
          cons (firstn n s) <$> next (pred n)
      | Failed => next O
      | Exhausted => None
      end
  end.

Definition findall (r : regex) (s : pystr) : option (list pystr) :=
  scan r false s 0.

End Engine.

End Sre.

Module TwitterUtils.
Import Sre.

Definition TLDS : list pystr := map utf8 [
  "ac"; "ad"; "ae"; "af"; "ag"; "ai"; "al"; "am"; "an"; "ao"; "aq"; "ar";
  "as"; "at"; "au"; "aw"; "ax"; "az"; "ba"; "bb"; "bd"; "be"; "bf"; "bg";
  "bh"; "bi"; "bj"; "bl"; "bm"; "bn"; "bo"; "bq"; "br"; "bs"; "bt"; "bv";
  "bw"; "by"; "bz"; "ca"; "cc"; "cd"; "cf"; "cg"; "ch"; "ci"; "ck"; "cl";
  "cm"; "cn"; "co"; "cr"; "cu"; "cv"; "cw"; "cx"; "cy"; "cz"; "de"; "dj";
  "dk"; "dm"; "do"; "dz"; "ec"; "ee"; "eg"; "eh"; "er"; "es"; "et"; "eu";
  "fi"; "fj"; "fk"; "fm"; "fo"; "fr"; "ga"; "gb"; "gd"; "ge"; "gf"; "gg";
  "gh"; "gi"; "gl"; "gm"; "gn"; "gp"; "gq"; "gr"; "gs"; "gt"; "gu"; "gw";
  "gy"; "hk"; "hm"; "hn"; "hr"; "ht"; "hu"; "id"; "ie"; "il"; "im"; "in";
  "io"; "iq"; "ir"; "is"; "it"; "je"; "jm"; "jo"; "jp"; "ke"; "kg"; "kh";
  "ki"; "km"; "kn"; "kp"; "kr"; "kw"; "ky"; "kz"; "la"; "lb"; "lc"; "li";
  "lk"; "lr"; "ls"; "lt"; "lu"; "lv"; "ly"; "ma"; "mc"; "md"; "me"; "mf";
  "mg"; "mh"; "mk"; "ml"; "mm"; "mn"; "mo"; "mp"; "mq"; "mr"; "ms"; "mt";
  "mu"; "mv"; "mw"; "mx"; "my"; "mz"; "na"; "nc"; "ne"; "nf"; "ng"; "ni";
  "nl"; "no"; "np"; "nr"; "nu"; "nz"; "om"; "pa"; "pe"; "pf"; "pg"; "ph";
  "pk"; "pl"; "pm"; "pn"; "pr"; "ps"; "pt"; "pw"; "py"; "qa"; "re"; "ro";
  "rs"; "ru"; "rw"; "sa"; "sb"; "sc"; "sd"; "se"; "sg"; "sh"; "si"; "sj";
  "sk"; "sl"; "sm"; "sn"; "so"; "sr"; "ss"; "st"; "su"; "sv"; "sx"; "sy";
  "sz"; "tc"; "td"; "tf"; "tg"; "th"; "tj"; "tk"; "tl"; "tm"; "tn"; "to";
  "tp"; "tr"; "tt"; "tv"; "tw"; "tz"; "ua"; "ug"; "uk"; "um"; "us"; "uy";
  "uz"; "va"; "vc"; "ve"; "vg"; "vi"; "vn"; "vu"; "wf"; "ws"; "ye"; "yt";
  "za"; "zm"; "zw"; "ελ"; "бел"; "мкд"; "мон"; "рф"; "срб"; "укр"; "қаз";
  "հայ"; "الاردن"; "الجزائر"; "السعودية"; "المغرب"; "امارات"; "ایران";
  "بھارت"; "تونس"; "سودان"; "سورية"; "عراق"; "عمان"; "فلسطين"; "قطر";
  "مصر"; "مليسيا"; "پاکستان"; "भारत"; "বাংলা"; "ভারত"; "ਭਾਰਤ"; "ભારત";
  "இந்தியா"; "இலங்கை"; "சிங்கப்பூர்"; "భారత్"; "ලංකා"; "ไทย"; "გე"; "中国";
  "中國"; "台湾"; "台灣"; "新加坡"; "澳門"; "香港"; "한국"; "neric:"; "abb"; "abbott";
  "abogado"; "academy"; "accenture"; "accountant"; "accountants"; "aco";
  "active"; "actor"; "ads"; "adult"; "aeg"; "aero"; "afl"; "agency"; "aig";
  "airforce"; "airtel"; "allfinanz"; "alsace"; "amsterdam"; "android";
  "apartments"; "app"; "aquarelle"; "archi"; "army"; "arpa"; "asia";
  "associates"; "attorney"; "auction"; "audio"; "auto"; "autos"; "axa";
  "azure"; "band"; "bank"; "bar"; "barcelona"; "barclaycard"; "barclays";
  "bargains"; "bauhaus"; "bayern"; "bbc"; "bbva"; "bcn"; "beer"; "bentley";
  "berlin"; "best"; "bet"; "bharti"; "bible"; "bid"; "bike"; "bing";
  "bingo"; "bio"; "biz"; "black"; "blackfriday"; "bloomberg"; "blue";
  "bmw"; "bnl"; "bnpparibas"; "boats"; "bond"; "boo"; "boots"; "boutique";
  "bradesco"; "bridgestone"; "broker"; "brother"; "brussels"; "budapest";
  "build"; "builders"; "business"; "buzz"; "bzh"; "cab"; "cafe"; "cal";
  "camera"; "camp"; "cancerresearch"; "canon"; "capetown"; "capital";
  "caravan"; "cards"; "care"; "career"; "careers"; "cars"; "cartier";
  "casa"; "cash"; "casino"; "cat"; "catering"; "cba"; "cbn"; "ceb";
  "center"; "ceo"; "cern"; "cfa"; "cfd"; "chanel"; "channel"; "chat";
  "cheap"; "chloe"; "christmas"; "chrome"; "church"; "cisco"; "citic";
  "city"; "claims"; "cleaning"; "click"; "clinic"; "clothing"; "cloud";
  "club"; "coach"; "codes"; "coffee"; "college"; "cologne"; "com";
  "commbank"; "community"; "company"; "computer"; "condos"; "construction";
  "consulting"; "contractors"; "cooking"; "cool"; "coop"; "corsica";
  "country"; "coupons"; "courses"; "credit"; "creditcard"; "cricket";
  "crown"; "crs"; "cruises"; "cuisinella"; "cymru"; "cyou"; "dabur"; "dad";
  "dance"; "date"; "dating"; "datsun"; "day"; "dclk"; "deals"; "degree";
  "delivery"; "delta"; "democrat"; "dental"; "dentist"; "desi"; "design";
  "dev"; "diamonds"; "diet"; "digital"; "direct"; "directory"; "discount";
  "dnp"; "docs"; "dog"; "doha"; "domains"; "doosan"; "download"; "drive";
  "durban"; "dvag"; "earth"; "eat"; "edu"; "education"; "email"; "emerck";
  "energy"; "engineer"; "engineering"; "enterprises"; "epson"; "equipment";
  "erni"; "esq"; "estate"; "eurovision"; "eus"; "events"; "everbank";
  "exchange"; "expert"; "exposed"; "express"; "fage"; "fail"; "faith";
  "family"; "fan"; "fans"; "farm"; "fashion"; "feedback"; "film";
  "finance"; "financial"; "firmdale"; "fish"; "fishing"; "fit"; "fitness";
  "flights"; "florist"; "flowers"; "flsmidth"; "fly"; "foo"; "football";
  "forex"; "forsale"; "forum"; "foundation"; "frl"; "frogans"; "fund";
  "furniture"; "futbol"; "fyi"; "gal"; "gallery"; "game"; "garden"; "gbiz";
  "gdn"; "gent"; "genting"; "ggee"; "gift"; "gifts"; "gives"; "giving";
  "glass"; "gle"; "global"; "globo"; "gmail"; "gmo"; "gmx"; "gold";
  "goldpoint"; "golf"; "goo"; "goog"; "google"; "gop"; "gov"; "graphics";
  "gratis"; "green"; "gripe"; "group"; "guge"; "guide"; "guitars"; "guru";
  "hamburg"; "hangout"; "haus"; "healthcare"; "help"; "here"; "hermes";
  "hiphop"; "hitachi"; "hiv"; "hockey"; "holdings"; "holiday"; "homedepot";
  "homes"; "honda"; "horse"; "host"; "hosting"; "hoteles"; "hotmail";
  "house"; "how"; "hsbc"; "ibm"; "icbc"; "ice"; "icu"; "ifm"; "iinet";
  "immo"; "immobilien"; "industries"; "infiniti"; "info"; "ing"; "ink";
  "institute"; "insure"; "int"; "international"; "investments"; "ipiranga";
  "irish"; "ist"; "istanbul"; "itau"; "iwc"; "java"; "jcb"; "jetzt";
  "jewelry"; "jlc"; "jll"; "jobs"; "joburg"; "jprs"; "juegos"; "kaufen";
  "kddi"; "kim"; "kitchen"; "kiwi"; "koeln"; "komatsu"; "krd"; "kred";
  "kyoto"; "lacaixa"; "lancaster"; "land"; "lasalle"; "lat"; "latrobe";
  "law"; "lawyer"; "lds"; "lease"; "leclerc"; "legal"; "lexus"; "lgbt";
  "liaison"; "lidl"; "life"; "lighting"; "limited"; "limo"; "link"; "live";
  "lixil"; "loan"; "loans"; "lol"; "london"; "lotte"; "lotto"; "love";
  "ltda"; "lupin"; "luxe"; "luxury"; "madrid"; "maif"; "maison"; "man";
  "management"; "mango"; "market"; "marketing"; "markets"; "marriott";
  "mba"; "media"; "meet"; "melbourne"; "meme"; "memorial"; "men"; "menu";
  "miami"; "microsoft"; "mil"; "mini"; "mma"; "mobi"; "moda"; "moe"; "mom";
  "monash"; "money"; "montblanc"; "mormon"; "mortgage"; "moscow";
  "motorcycles"; "mov"; "movie"; "movistar"; "mtn"; "mtpc"; "museum";
  "nadex"; "nagoya"; "name"; "navy"; "nec"; "net"; "netbank"; "network";
  "neustar"; "new"; "news"; "nexus"; "ngo"; "nhk"; "nico"; "ninja";
  "nissan"; "nokia"; "nra"; "nrw"; "ntt"; "nyc"; "office"; "okinawa";
  "omega"; "one"; "ong"; "onl"; "online"; "ooo"; "oracle"; "orange"; "org";
  "organic"; "osaka"; "otsuka"; "ovh"; "page"; "panerai"; "paris";
  "partners"; "parts"; "party"; "pet"; "pharmacy"; "philips"; "photo";
  "photography"; "photos"; "physio"; "piaget"; "pics"; "pictet";
  "pictures"; "pink"; "pizza"; "place"; "play"; "plumbing"; "plus"; "pohl";
  "poker"; "porn"; "post"; "praxi"; "press"; "pro"; "prod"; "productions";
  "prof"; "properties"; "property"; "pub"; "qpon"; "quebec"; "racing";
  "realtor"; "realty"; "recipes"; "red"; "redstone"; "rehab"; "reise";
  "reisen"; "reit"; "ren"; "rent"; "rentals"; "repair"; "report";
  "republican"; "rest"; "restaurant"; "review"; "reviews"; "rich"; "ricoh";
  "rio"; "rip"; "rocks"; "rodeo"; "rsvp"; "ruhr"; "run"; "ryukyu";
  "saarland"; "sakura"; "sale"; "samsung"; "sandvik"; "sandvikcoromant";
  "sanofi"; "sap"; "sarl"; "saxo"; "sca"; "scb"; "schmidt"; "scholarships";
  "school"; "schule"; "schwarz"; "science"; "scor"; "scot"; "seat"; "seek";
  "sener"; "services"; "sew"; "sex"; "sexy"; "shiksha"; "shoes"; "show";
  "shriram"; "singles"; "site"; "ski"; "sky"; "skype"; "sncf"; "soccer";
  "social"; "software"; "sohu"; "solar"; "solutions"; "sony"; "soy";
  "space"; "spiegel"; "spreadbetting"; "srl"; "starhub"; "statoil";
  "studio"; "study"; "style"; "sucks"; "supplies"; "supply"; "support";
  "surf"; "surgery"; "suzuki"; "swatch"; "swiss"; "sydney"; "systems";
  "taipei"; "tatamotors"; "tatar"; "tattoo"; "tax"; "taxi"; "team"; "tech";
  "technology"; "tel"; "telefonica"; "temasek"; "tennis"; "thd"; "theater";
  "tickets"; "tienda"; "tips"; "tires"; "tirol"; "today"; "tokyo"; "tools";
  "top"; "toray"; "toshiba"; "tours"; "town"; "toyota"; "toys"; "trade";
  "trading"; "training"; "travel"; "trust"; "tui"; "ubs"; "university";
  "uno"; "uol"; "vacations"; "vegas"; "ventures"; "vermögensberater";
  "vermögensberatung"; "versicherung"; "vet"; "viajes"; "video"; "villas";
  "vin"; "vision"; "vista"; "vistaprint"; "vlaanderen"; "vodka"; "vote";
  "voting"; "voto"; "voyage"; "wales"; "walter"; "wang"; "watch"; "webcam";
  "website"; "wed"; "wedding"; "weir"; "whoswho"; "wien"; "wiki";
  "williamhill"; "win"; "windows"; "wine"; "wme"; "work"; "works"; "world";
  "wtc"; "wtf"; "xbox"; "xerox"; "xin"; "xperia"; "xxx"; "xyz"; "yachts";
  "yandex"; "yodobashi"; "yoga"; "yokohama"; "youtube"; "zip"; "zone";
  "zuerich"; "дети"; "ком"; "москва"; "онлайн"; "орг"; "рус"; "сайт";
  "קום"; "بازار"; "شبكة"; "كوم"; "موقع"; "कॉम"; "नेट"; "संगठन"; "คอม";
  "みんな"; "グーグル"; "コム"; "世界"; "中信"; "中文网"; "企业"; "佛山"; "信息"; "健康"; "八卦";
  "公司"; "公益"; "商城"; "商店"; "商标"; "在线"; "大拿"; "娱乐"; "工行"; "广东"; "慈善"; "我爱你";
  "手机"; "政务"; "政府"; "新闻"; "时尚"; "机构"; "淡马锡"; "游戏"; "点看"; "移动"; "组织机构";
  "网址"; "网店"; "网络"; "谷歌"; "集团"; "飞利浦"; "餐厅"; "닷넷"; "닷컴"; "삼성"; "onion"
]%string.

(** The characters that the pattern syntax treats specially.  The labels
    are spliced into the pattern unescaped. *)
Definition special (c : N) : bool :=
  existsb (N.eqb c) (utf8 ".^$*+?{}[]\|()").

(** [[\w+-_]]: the word category and the range from [+] to [_]. *)
Definition host_class : regex := In [Category_word; ItemRange 43 95].

(** [(?:[0-9]|[1-9][0-9]|1[0-9][0-9]|2[0-4][0-9]|25[0-5])] *)
Definition octet : regex :=
  branches
    [ In [ItemRange 48 57];
      Seq (In [ItemRange 49 57]) (In [ItemRange 48 57]);
      Seq (Literal 49) (Seq (In [ItemRange 48 57]) (In [ItemRange 48 57]));
      Seq (Literal 50) (Seq (In [ItemRange 48 52]) (In [ItemRange 48 57]));
      Seq (Literal 50) (Seq (Literal 53) (In [ItemRange 48 53])) ].

(** [[a-z0-9!\*\'\(\);:&=\+\$/%#\[\]\-_\.,~?]] *)
Definition tail_class : regex :=
  In (ItemRange 97 122 :: ItemRange 48 57 :: map ItemLit (utf8 "!*'();:&=+$/%#[]-_.,~?")).

(** [r'\b|'.join(TLDS) + r'\b|' + octet]: every label is followed by a
    word boundary, the numeric alternative is not. *)
Definition labels : list regex :=
  map (fun t => Seq (literals t) AtBoundary) TLDS ++ [octet].

Definition URL_REGEXP : regex :=
  (* (?:https?://|www\\.)* *)
  Seq (Star (Branch
         (Seq (literals (utf8 "http")) (Seq (Opt (Literal 115)) (literals (utf8 "://"))))
         (Seq (literals (utf8 "www")) (Seq (Literal 92) AnyNoNL))))
  (* (?:[\w+-_]+[.]) *)
  (Seq (Seq (Plus host_class) (In [ItemLit 46]))
  (* (?:label\b|...|octet)+ *)
  (Seq (Plus (branches labels))
  (* (?:[:\w+\/]?[...])* *)
       (Star (Seq (Opt (In [ItemLit 58; Category_word; ItemLit 43; ItemLit 47]))
                  tail_class)))).

Section Estimator.
Variable uni_word : N -> bool.
Variable uni_fold : N -> N.

(** The functions return [None] only if the matcher exhausted a loop
    budget.  [short_url_length] is 23 when the caller omits it. *)
Definition calc_expected_status_length (status : pystr) (short_url_length : Z)
    : option Z :=
  let status_length := Z.of_nat (length status) in
  match_ ← findall uni_word uni_fold URL_REGEXP status;
  let replaced_chars :=
    if (1 <=? length match_)%nat then Z.of_nat (length (concat match_))
    else 0%Z in
  Some (status_length - replaced_chars
        + short_url_length * Z.of_nat (length match_))%Z.

Definition is_url (text : pystr) : option bool :=
  match_ ← findall uni_word uni_fold URL_REGEXP text;
  Some (match match_ with [] => false | _ :: _ => true end).

End Estimator.

End TwitterUtils.

(** ** Notions used to state the properties of the engine *)
Module SreSpec.
Import Sre.

(** A pattern that consumes at least one character whenever it matches. *)
Fixpoint consumes (r : regex) : bool :=
  match r with
  | Empty | AtBoundary | Star _ => false
  | Literal _ | AnyNoNL | In _ => true
  | Seq r1 r2 => consumes r1 || consumes r2
  | Branch r1 r2 => consumes r1 && consumes r2
  end.

Definition total_length (ms : list pystr) : nat :=
  foldr (fun m n => (length m + n)%nat) 0%nat ms.

Section WithTables.
Variable uni_word : N -> bool.
Variable uni_fold : N -> N.

(** Whether the character before the current position is a word
    character, after the text [pre] has been passed. *)
Definition after (pw : bool) (pre : pystr) : bool :=
  fold_left (fun _ c => is_word uni_word c) pre pw.

(** The pattern matches at the front of [s]. *)
Definition matches_at (r : regex) (pw : bool) (s : pystr) : Prop :=
  exists e, match_at uni_word uni_fold r pw s = Matched e.

(** The pattern matches somewhere in [s]. *)
Definition matches_in (r : regex) (pw : bool) (s : pystr) : Prop :=
  exists pre suf, s = pre ++ suf /\ matches_at r (after pw pre) suf.

(** A continuation that never exhausts a loop budget. *)
Definition converging (k : cont) : Prop := forall pw s, k pw s <> Exhausted.

(** The grammar, read declaratively.  [derives r pw s pw' s'] says that
    [r] can match the text between the position in front of [s] and the
    position in front of its suffix [s']; [pw] and [pw'] tell whether the
    character before each position is a word character.  An iteration
    of a repetition consumes at least one character. *)
Inductive derives : regex -> bool -> pystr -> bool -> pystr -> Prop :=
| derives_empty pw s :
    derives Empty pw s pw s
| derives_literal p c pw s :
    lit_match uni_fold p c = true ->
    derives (Literal p) pw (c :: s) (is_word uni_word c) s
| derives_any c pw s :
    (c =? 10)%N = false ->
    derives AnyNoNL pw (c :: s) (is_word uni_word c) s
| derives_in items c pw s :
    in_class uni_word uni_fold items c = true ->
    derives (In items) pw (c :: s) (is_word uni_word c) s
| derives_boundary pw s :
    xorb pw (next_is_word uni_word s) = true ->
    derives AtBoundary pw s pw s
| derives_seq r1 r2 pw s pw1 s1 pw2 s2 :
    derives r1 pw s pw1 s1 -> derives r2 pw1 s1 pw2 s2 ->
    derives (Seq r1 r2) pw s pw2 s2
| derives_branch_l r1 r2 pw s pw' s' :
    derives r1 pw s pw' s' -> derives (Branch r1 r2) pw s pw' s'
| derives_branch_r r1 r2 pw s pw' s' :
    derives r2 pw s pw' s' -> derives (Branch r1 r2) pw s pw' s'
| derives_star_stop r pw s :
    derives (Star r) pw s pw s
| derives_star_step r pw s pw1 s1 pw2 s2 :
    (length s1 < length s)%nat ->
    derives r pw s pw1 s1 -> derives (Star r) pw1 s1 pw2 s2 ->
    derives (Star r) pw s pw2 s2.

(** The grammar has a match that starts somewhere in [s]. *)
Definition occurs (r : regex) (pw : bool) (s : pystr) : Prop :=
  exists pre suf pw' rest,
    s = pre ++ suf /\ derives r (after pw pre) suf pw' rest.

(** [scanned r pw ms s]: [ms] are the matches of [r] in [s] from left to
    right.  The scan goes through [s]; where [r] does not match it moves
    on by one character, where [r] matches it reports the match and goes
    on behind it.  The matches are therefore disjoint pieces of [s]. *)
Inductive scanned (r : regex) : bool -> list pystr -> pystr -> Prop :=
| scanned_end pw :
    ~ matches_at r pw [] -> scanned r pw [] []
| scanned_gap pw c ms s :
    match_at uni_word uni_fold r pw (c :: s) = Failed ->
    scanned r (is_word uni_word c) ms s ->
    scanned r pw ms (c :: s)
| scanned_match pw m ms s :
    m <> [] ->
    match_at uni_word uni_fold r pw (m ++ s) = Matched s ->
    scanned r (after pw m) ms s ->
    scanned r pw (m :: ms) (m ++ s).

End WithTables.
End SreSpec.

(** * twitter_utils.parse_media_file

    Paths, file names and MIME types are kept as byte strings. *)
Module MediaFile.

(** A stream object.  Its content only matters through its length. *)
Record fileobj := mkFile {
  fo_name : string;
  fo_size : Z;
  fo_pos : Z;
  fo_closed : bool;
  fo_seekable : bool
}.

(** The environment: the files that exist (by real path, with their
    byte length), the URLs that answer (with the length the server
    reports) and the stream objects alive, addressed by their index. *)
Record world := mkWorld {
  files : gmap string Z;
  remote : gmap string Z;
  heap : list fileobj
}.

(** A computation that reads and updates the environment and returns
    or raises. *)
Definition io (A : Type) := world -> result A * world.

Definition ret {A} (a : A) : io A := fun w => (Ok a, w).
Definition raise {A} (e : exn) : io A := fun w => (Raise e, w).
Definition bind {A B} (m : io A) (f : A -> io B) : io B :=
  fun w => match m w with
           | (Ok a, w') => f a w'
           | (Raise e, w') => (Raise e, w')
           end.

#[export] Instance io_ret : MRet io := @ret.
#[export] Instance io_bind : MBind io := fun A B f m => bind m f.

(** [try: m except: pass] *)
Definition try_pass {A} (m : io A) : io unit :=
  fun w => (Ok tt, snd (m w)).

Definition set_heap (h : list fileobj) (w : world) : world :=
  mkWorld (files w) (remote w) h.

Definition set_pos (p : Z) (f : fileobj) : fileobj :=
  mkFile (fo_name f) (fo_size f) p (fo_closed f) (fo_seekable f).

Definition set_closed (f : fileobj) : fileobj :=
  mkFile (fo_name f) (fo_size f) (fo_pos f) true (fo_seekable f).

(** [open(path, 'rb')]: a new seekable stream at offset 0. *)
Definition py_open (path : string) : io nat :=
  fun w => match files w !! path with
           | Some sz =>
               (Ok (length (heap w)),
                set_heap (heap w ++ [mkFile path sz 0 false true]) w)
           | None => (Raise OSError, w)
           end.

(** [urlopen(url)]: a response stream; it cannot seek. *)
Definition urlopen (url : string) : io nat :=
  fun w => match remote w !! url with
           | Some len =>
               (Ok (length (heap w)),
                set_heap (heap w ++ [mkFile url len 0 false false]) w)
           | None => (Raise URLError, w)
           end.

Definition with_stream {A} (h : nat) (k : fileobj -> io A) : io A :=
  fun w => match heap w !! h with
           | Some f => k f w
           | None => (Raise AttributeError, w)
           end.

(** [f.seek(offset, whence)] with [whence] 0 (from the start) or 2 (from
    the end). *)
Definition seek (h : nat) (offset : Z) (whence : Z) : io Z :=
  with_stream h (fun f =>
    if fo_closed f then raise ValueError
    else if negb (fo_seekable f) then raise UnsupportedOperation
    else
      let p := (if (whence =? 2)%Z then fo_size f + offset else offset)%Z in
      fun w => (Ok p, set_heap (<[h := set_pos p f]> (heap w)) w)).

Definition tell (h : nat) : io Z :=
  with_stream h (fun f =>
    if fo_closed f then raise ValueError else ret (fo_pos f)).

Definition close (h : nat) : io unit :=
  with_stream h (fun f w =>
    (Ok tt, set_heap (<[h := set_closed f]> (heap w)) w)).

(** [f.read()]: the number of bytes from the current offset to the end. *)
Definition read (h : nat) : io Z :=
  with_stream h (fun f =>
    if fo_closed f then raise ValueError
    else fun w => (Ok (fo_size f - fo_pos f)%Z,
                   set_heap (<[h := set_pos (fo_size f) f]> (heap w)) w)).

(** [f.name] and, for a response, [f.length]. *)
Definition name_of (h : nat) : io string :=
  with_stream h (fun f => ret (fo_name f)).
Definition length_of (h : nat) : io Z :=
  with_stream h (fun f => ret (fo_size f)).

(** [with open(path, 'rb') as f: body]: the file is closed when the
    block is left, whether [body] returned or raised. *)
Definition with_open {A} (path : string) (body : nat -> io A) : io A :=
  fun w => match py_open path w with
           | (Ok f, w1) =>
               let '(r, w2) := body f w1 in
               (r, snd (close f w2))
           | (Raise e, w1) => (Raise e, w1)
           end.

(** [os.path.basename]: what follows the last slash. *)
Fixpoint has_slash (p : string) : bool :=
  match p with
  | EmptyString => false
  | String c p' => Ascii.eqb c "/" || has_slash p'
  end.

Fixpoint basename (p : string) : string :=
  match p with
  | EmptyString => EmptyString
  | String c p' =>
      if Ascii.eqb c "/" || has_slash p' then basename p' else p
  end.

(** The argument of [parse_media_file]: a string, or an object that has
    a [read] method ([hasattr(passed_media, 'read')] tells them apart). *)
Inductive media_ref :=
| RefStr (s : string)
| RefStream (h : nat).

Definition img_formats : list string :=
  ["image/jpeg"; "image/png"; "image/gif"; "image/bmp"; "image/webp"]%string.
Definition video_formats : list string := ["video/mp4"]%string.

(** [media_type in formats]; [None] is in no list. *)
Definition type_in (media_type : option string) (formats : list string) : bool :=
  match media_type with
  | Some t => existsb (String.eqb t) formats
  | None => false
  end.

(** The returned tuple [(data_file, filename, file_size, media_type)]. *)
Record descriptor := mkDescriptor {
  data_file : nat;
  filename : string;
  file_size : Z;
  media_type : option string
}.

Section ParseMediaFile.

(** [mimetypes.guess_type(name)[0]] and [os.path.realpath] belong to the
    standard library and the file system. *)
Variable guess_type : string -> option string.
Variable realpath : string -> string.

(** Lines 173-196: the stream, the file name and the size. *)
Definition acquire (passed_media : media_ref) : io (nat * string * Z) :=
  r ← match passed_media return io (nat * string * Z) with
       | RefStr s =>
           if String.prefix "http" s then
             let filename := basename s in
             data_file ← urlopen s;
             file_size ← length_of data_file;
             ret (data_file, filename, file_size)
           else
             with_open (realpath s) (fun f =>
               let filename := basename s in
               let data_file := f in
               seek data_file 0 2;;
               file_size ← tell data_file;
               ret (data_file, filename, file_size))
       | RefStream h =>
           filename ← name_of h;
           let data_file := h in
           seek data_file 0 2;;
           file_size ← tell data_file;
           ret (data_file, filename, file_size)
       end;
  try_pass (seek (fst (fst r)) 0 0);;
  ret r.

(** Lines 198-206: the type and the size limits. *)
Definition validate (r : nat * string * Z) : result descriptor :=
  let '(data_file, filename, file_size) := r in
  let media_type := guess_type (basename filename) in
  if type_in media_type img_formats && (file_size >? 5 * 1048576)%Z then
    Raise (TwitterError "Images must be less than 5MB.")
  else if type_in media_type video_formats && (file_size >? 15 * 1048576)%Z then
    Raise (TwitterError "Videos must be less than 15MB.")
  else if negb (type_in media_type img_formats)
          && negb (type_in media_type video_formats) then
    Raise (TwitterError "Media type could not be determined.")
  else Ok (mkDescriptor data_file filename file_size media_type).

Definition parse_media_file (passed_media : media_ref) : io descriptor :=
  r ← acquire passed_media;
  (fun w => (validate r, w)) : io descriptor.

End ParseMediaFile.

(** Entries of the default table of [mimetypes] for the extensions used
    in the examples. *)
Definition sample_guess_type (name : string) : option string :=
  let ext (e : string) :=
    String.eqb
      (String.substring (String.length name - String.length e)
                        (String.length e) name) e in
  if ext ".jpg" || ext ".jpeg" then Some "image/jpeg"
  else if ext ".png" then Some "image/png"
  else if ext ".gif" then Some "image/gif"
  else if ext ".mp4" then Some "video/mp4"
  else if ext ".txt" then Some "text/plain"
  else None.

(** A computation that raises no [TwitterError]. *)
Definition quiet {A} (m : io A) : Prop :=
  forall w e w', m w = (Raise e, w') -> forall msg, e <> TwitterError msg.

(** A descriptor that respects the limits. *)
Definition descriptor_valid (d : descriptor) : Prop :=
  (type_in (media_type d) img_formats = true /\ (file_size d <= 5 * 1048576)%Z)
  \/ (type_in (media_type d) video_formats = true /\ (file_size d <= 15 * 1048576)%Z).

(** The caller can read the stream from offset 0. *)
Definition readable_from_start (h : nat) (w : world) : Prop :=
  exists f, heap w !! h = Some f /\ fo_closed f = false /\ fo_pos f = 0%Z.

(** A directory with one file of 4 MiB. *)
Definition photo_world : world :=
  mkWorld {[ "/home/u/photo.jpg"%string := (4 * 1048576)%Z ]} ∅ [].
Definition photo_realpath (p : string) : string := ("/home/u/" ++ p)%string.

End MediaFile.

(** * models.py *)
Module Models.

(** ** Values

    Decoded JSON: [None], booleans, integers, strings, lists and
    dictionaries with string keys.  Floating-point numbers are left
    out. *)
Inductive json :=
| JNull
| JBool (b : bool)
| JInt (z : Z)
| JStr (s : string)
| JList (l : list json)
| JDict (d : gmap string json).

Inductive model_class :=
| Media | List_ | Category | DirectMessage | Trend | Hashtag | Url
| UserStatus | User | Status.

#[export] Instance model_class_eq_dec : EqDecision model_class.
Proof. solve_decision. Defined.

(** A model instance: its class and its attributes.  An attribute holds
    decoded JSON or another instance (as [List.user] does).  Lists of
    instances, which only [Status.NewFromJsonDict] builds for the
    entities of a status, are left out, and so is that method. *)
Inductive model :=
| Model (cls : model_class) (attrs : gmap string (json + model)).

Abbreviation pyval := (json + model)%type.
Abbreviation Data j := (inl j : pyval) (only parsing).
Abbreviation Inst m := (inr m : pyval) (only parsing).

Definition class_of (m : model) : model_class := let 'Model c _ := m in c.
Definition attrs_of (m : model) : gmap string pyval := let 'Model _ a := m in a.

(** Truth value of [if v:]. An instance is always true: the classes
    define neither [__bool__] nor [__len__]. *)
Definition truthy_json (j : json) : bool :=
  match j with
  | JNull => false
  | JBool b => b
  | JInt z => negb (z =? 0)%Z
  | JStr s => negb (String.eqb s EmptyString)
  | JList l => match l with [] => false | _ :: _ => true end
  | JDict d => negb (bool_decide (size d = 0%nat))
  end.

Definition truthy (v : pyval) : bool :=
  match v with
  | inl j => truthy_json j
  | inr _ => true
  end.

(** Python's [==] on decoded JSON.  [True] and [False] are the integers
    1 and 0; dictionaries are equal when they have as many keys and
    every key of the first has an equal value in the second. *)
Definition bool_int (b : bool) : Z := if b then 1%Z else 0%Z.

Fixpoint json_eq (a b : json) {struct a} : bool :=
  match a, b with
  | JNull, JNull => true
  | JBool x, JBool y => Bool.eqb x y
  | JBool x, JInt z => (bool_int x =? z)%Z
  | JInt z, JBool y => (z =? bool_int y)%Z
  | JInt x, JInt y => (x =? y)%Z
  | JStr x, JStr y => String.eqb x y
  | JList la, JList lb =>
      (fix list_eq (la lb : list json) {struct la} : bool :=
         match la, lb with
         | [], [] => true
         | x :: la', y :: lb' => json_eq x y && list_eq la' lb'
         | _, _ => false
         end) la lb
  | JDict da, JDict db =>
      bool_decide (size da = size db)
      && map_fold (fun k x acc =>
                     match db !! k with
                     | Some y => json_eq x y
                     | None => false
                     end && acc) true da
  | _, _ => false
  end.

Definition dict_eq (da db : gmap string json) : bool := json_eq (JDict da) (JDict db).

(** ** The classes *)

Definition none_defaults (keys : list string) : gmap string pyval :=
  list_to_map (map (fun k => (k, Data JNull)) keys).

Definition param_defaults (cls : model_class) : gmap string pyval :=
  match cls with
  | Media =>
      none_defaults ["id"; "expanded_url"; "display_url"; "url";
                     "media_url_https"; "media_url"; "type"]
  | List_ =>
      none_defaults ["id"; "name"; "slug"; "description"; "full_name";
                     "mode"; "uri"; "member_count"; "subscriber_count";
                     "following"; "user"]
  | Category => none_defaults ["name"; "slug"; "size"]
  | DirectMessage =>
      none_defaults ["id"; "created_at"; "sender_id"; "sender_screen_name";
                     "recipient_id"; "recipient_screen_name"; "text"]
  | Trend =>
      none_defaults ["events"; "name"; "promoted_content"; "query";
                     "timestamp"; "url"; "volume"]
  | Hashtag => none_defaults ["text"]
  | Url => none_defaults ["expanded_url"; "url"]
  | UserStatus =>
      list_to_map
        [("blocking", Data (JBool false)); ("followed_by", Data (JBool false));
         ("following", Data (JBool false));
         ("following_received", Data (JBool false));
         ("following_requested", Data (JBool false));
         ("id", Data JNull); ("id_str", Data JNull);
         ("muting", Data (JBool false)); ("name", Data JNull);
         ("screen_name", Data JNull)]
  | User =>
      none_defaults
        ["contributors_enabled"; "created_at"; "default_profile";
         "default_profile_image"; "description"; "favourites_count";
         "followers_count"; "friends_count"; "geo_enabled"; "id"; "lang";
         "listed_count"; "location"; "name"; "notifications";
         "profile_background_color"; "profile_background_image_url";
         "profile_background_tile"; "profile_banner_url";
         "profile_image_url"; "profile_link_color";
         "profile_sidebar_fill_color"; "profile_text_color"; "protected";
         "screen_name"; "status"; "statuses_count"; "time_zone"; "url";
         "utc_offset"; "verified"]
  | Status =>
      none_defaults
        ["contributors"; "coordinates"; "created_at"; "current_user_retweet";
         "favorite_count"; "favorited"; "geo"; "hashtags"; "id"; "id_str";
         "in_reply_to_screen_name"; "in_reply_to_status_id";
         "in_reply_to_user_id"; "lang"; "location"; "media"; "now"; "place";
         "possibly_sensitive"; "retweet_count"; "retweeted";
         "retweeted_status"; "scopes"; "source"; "text"; "truncated"; "urls";
         "user"; "user_mentions"; "withheld_copyright";
         "withheld_in_countries"; "withheld_scope"]
  end.

(** [UserStatus.connections] *)
Definition connections : list string :=
  ["following"; "followed_by"; "following_received"; "following_requested";
   "blocking"; "muting"].

(** The loop of every [__init__]:
    [setattr(self, param, kwargs.get(param, default))]. *)
Definition init_attrs (cls : model_class) (kwargs : gmap string pyval)
    : gmap string pyval :=
  map_imap (fun param dflt => Some (default dflt (kwargs !! param)))
           (param_defaults cls).

(** Unpacking [data] as keyword arguments needs a mapping. *)
Definition as_kwargs (data : pyval) : result (gmap string pyval) :=
  match data with
  | inl (JDict d) => Ok (inl <$> d)
  | _ => Raise TypeError
  end.

(** [param in container] *)
Definition contains (container : pyval) (param : string) : result bool :=
  match container with
  | inl (JList l) => Ok (existsb (fun x => json_eq x (JStr param)) l)
  | inl (JDict d) => Ok (bool_decide (is_Some (d !! param)))
  | inl (JStr s) =>
      Ok (match String.index 0 param s with Some _ => true | None => false end)
  | _ => Raise TypeError
  end.

(** [for param in self.connections: if param in kwargs['connections']:
    setattr(self, param, True)] *)
Fixpoint set_connections (container : pyval) (params : list string)
    (attrs : gmap string pyval) : result (gmap string pyval) :=
  match params with
  | [] => Ok attrs
  | param :: params' =>
      match contains container param with
      | Ok true => set_connections container params'
                     (<[param := Data (JBool true)]> attrs)
      | Ok false => set_connections container params' attrs
      | Raise e => Raise e
      end
  end.

(** The constructor call with the keyword arguments [kwargs]. *)
Definition init (cls : model_class) (kwargs : gmap string pyval) : result model :=
  let attrs := init_attrs cls kwargs in
  match cls with
  | List_ =>
      match kwargs !! "user" with
      | Some data =>
          (* self.user = User.NewFromJsonDict(kwargs.get('user')): the
             constructor of User on the unpacked mapping, which is the
             copying loop alone *)
          match as_kwargs data with
          | Ok d => Ok (Model List_
                          (<["user" := Inst (Model User (init_attrs User d))]> attrs))
          | Raise e => Raise e
          end
      | None => Ok (Model List_ attrs)
      end
  | UserStatus =>
      match kwargs !! "connections" with
      | Some container =>
          match set_connections container connections attrs with
          | Ok attrs' => Ok (Model UserStatus attrs')
          | Raise e => Raise e
          end
      | None => Ok (Model UserStatus attrs)
      end
  | _ => Ok (Model cls attrs)
  end.

(** [TwitterModel.NewFromJsonDict(cls, data, **kwargs)]: the keyword
    arguments are written into [data], which the caller still holds; the
    instance and the updated [data] are returned. *)
Definition NewFromJsonDict (cls : model_class) (data kwargs : gmap string pyval)
    : result model * gmap string pyval :=
  let data' := kwargs ∪ data in
  (init cls data', data').

(** ** Conversions *)

(** [AsDict]: for every key of [param_defaults], an attribute that has an
    [AsDict] method contributes its own [AsDict], any other attribute
    contributes itself when it is true.  The attributes are converted
    first; the loop over [param_defaults] then picks them by key, as
    [getattr(self, key, None)] does. *)
Fixpoint AsDict (m : model) : gmap string json :=
  let 'Model cls attrs := m in
  let converted :=
    omap (fun v : json + model =>
            match v with
            | inr m' => Some (JDict (AsDict m'))
            | inl j => if truthy_json j then Some j else None
            end) attrs in
  map_imap (fun key _ => converted !! key) (param_defaults cls).

(** What one attribute contributes to [AsDict]. *)
Definition as_dict_value (v : pyval) : option json :=
  match v with
  | inr m' => Some (JDict (AsDict m'))
  | inl j => if truthy_json j then Some j else None
  end.

(** [__eq__]: [other and self.AsDict() == other.AsDict()] *)
Definition eq__ (self : model) (other : pyval) : result pyval :=
  if truthy other then
    match other with
    | inr o => Ok (Data (JBool (dict_eq (AsDict self) (AsDict o))))
    | inl _ => Raise AttributeError
    end
  else Ok other.

(** [__ne__]: [not self.__eq__(other)] *)
Definition ne__ (self : model) (other : pyval) : result pyval :=
  match eq__ self other with
  | Ok v => Ok (Data (JBool (negb (truthy v))))
  | Raise e => Raise e
  end.

(** ** Serialisation

    What [json.dumps(..., sort_keys=True)] writes, before it is rendered
    as text: the members of every object in the order of their keys. *)
Inductive jdoc :=
| DNull
| DBool (b : bool)
| DNum (z : Z)
| DString (s : string)
| DArray (l : list jdoc)
| DObject (members : list (string * jdoc)).

Definition key_le {A} (x y : string * A) : Prop :=
  String.leb (fst x) (fst y) = true.

#[export] Instance key_le_dec {A} (x y : string * A) : Decision (key_le x y).
Proof. unfold key_le. apply _. Defined.

Fixpoint dumps (j : json) : jdoc :=
  match j with
  | JNull => DNull
  | JBool b => DBool b
  | JInt z => DNum z
  | JStr s => DString s
  | JList l => DArray (map dumps l)
  | JDict d => DObject (merge_sort key_le (map_to_list (dumps <$> d)))
  end.

Definition AsJsonString (m : model) : jdoc := dumps (JDict (AsDict m)).

End Models.

(** ** Notions used to state the properties of the models *)
Module ModelsSpec.
Import Models.

Fixpoint jsize (j : json) : nat :=
  match j with
  | JList l => S (foldr (fun x n => (jsize x + n)%nat) 0%nat l)
  | JDict d => S (map_fold (fun _ x n => (jsize x + n)%nat) 0%nat d)
  | _ => 1%nat
  end.

(** Decoded JSON with [True] and [False] written as the integers they
    are equal to. *)
Fixpoint norm (j : json) : json :=
  match j with
  | JBool b => JInt (bool_int b)
  | JList l => JList (map norm l)
  | JDict d => JDict (norm <$> d)
  | _ => j
  end.

(** Every object of the document, at any depth, has its members in the
    order of their keys. *)
Fixpoint canonical (d : jdoc) : Prop :=
  match d with
  | DArray l => foldr (fun x P => canonical x /\ P) True l
  | DObject members =>
      Sorted key_le members
      /\ foldr (fun kv P => canonical (snd kv) /\ P) True members
  | _ => True
  end.

(** The fields that a constructor sets after its copying loop:
    [List.user], and the connection flags of [UserStatus]. *)
Definition rebuilt (cls : model_class) (kwargs : gmap string pyval)
    (k : string) : bool :=
  match cls with
  | List_ => bool_decide (k = "user") && bool_decide (is_Some (kwargs !! "user"))
  | UserStatus =>
      bool_decide (k ∈ connections)
      && bool_decide (is_Some (kwargs !! "connections"))
  | _ => false
  end.

(** An attribute that is missing or false in a boolean context. *)
Definition falsy_attr (o : option pyval) : Prop :=
  match o with
  | Some v => truthy v = false
  | None => True
  end.

(** *** The round trip as the specification words it *)

Definition is_empty_json (j : json) : bool :=
  match j with
  | JNull => true
  | JStr s => String.eqb s EmptyString
  | JList l => match l with [] => true | _ :: _ => false end
  | JDict d => bool_decide (size d = 0%nat)
  | _ => false
  end.

Definition is_default (cls : model_class) (k : string) (j : json) : bool :=
  match param_defaults cls !! k with
  | Some (inl d) => json_eq j d
  | _ => false
  end.

(** The supplied fields that the class declares and whose value is
    neither the default of the field nor empty. *)
Definition non_default_fields (cls : model_class) (data : gmap string json)
    : gmap string json :=
  filter (fun kv => Is_true (bool_decide (is_Some (param_defaults cls !! fst kv))
                             && negb (is_default cls (fst kv) (snd kv))
                             && negb (is_empty_json (snd kv)))) data.

Definition round_trip_as_claimed (cls : model_class) (data : gmap string json)
    : Prop :=
  forall m, init cls (inl <$> data) = Ok m -> AsDict m = non_default_fields cls data.

Definition user_sample : gmap string json :=
  <["name" := JStr "x"]> (<["friends_count" := JInt 0]>
    (<["verified" := JBool false]> ∅)).

Definition connections_sample : gmap string json :=
  {[ "connections" := JList [JStr "following"] ]}.

(** *** Equality as the specification words it *)

(** [==] between two attribute values. *)
Definition value_equal (u v : pyval) : bool :=
  match u, v with
  | inl x, inl y => json_eq x y
  | inr a, inr b => dict_eq (AsDict a) (AsDict b)
  | _, _ => false
  end.

(** The two instances hold equal values in the same fields. *)
Definition fields_equal (a b : model) : Prop :=
  forall k, match attrs_of a !! k, attrs_of b !! k with
            | Some u, Some v => value_equal u v = true
            | None, None => True
            | _, _ => False
            end.

Definition structural_eq_as_claimed : Prop :=
  forall a b, eq__ a (Inst b) = Ok (Data (JBool true)) <-> fields_equal a b.

Definition media_zero : model :=
  Model Media (init_attrs Media {[ "id" := Data (JInt 0) ]}).
Definition media_none : model :=
  Model Media (init_attrs Media ∅).

End ModelsSpec.

(** * Notions and samples for the further properties *)
Module MediaFileSpec.
Import MediaFile.

(** The stream keeps its identity: name, length, open or closed, able to
    seek or not.  Only its offset may differ. *)
Definition same_stream (f f' : fileobj) : Prop :=
  fo_name f' = fo_name f /\ fo_size f' = fo_size f
  /\ fo_closed f' = fo_closed f /\ fo_seekable f' = fo_seekable f.

(** No stream that the call created is open afterwards. *)
Definition nothing_left_open (w w' : world) : Prop :=
  forall i f, (length (heap w) <= i)%nat -> heap w' !! i = Some f ->
              fo_closed f = true.

(** A caller that holds an open stream on a video of 1000 bytes. *)
Definition stream_world : world :=
  mkWorld ∅ ∅ [mkFile "clip.mp4" 1000 17 false true].

(** A server that answers for one picture of 2048 bytes. *)
Definition remote_world : world :=
  mkWorld ∅ {[ "http://example.com/a.png"%string := 2048%Z ]} [].

End MediaFileSpec.

Module TwitterUtilsSpec.
Import Sre.

(** The least number of characters that a match of the pattern has. *)
Fixpoint min_len (r : regex) : nat :=
  match r with
  | Empty | AtBoundary | Star _ => 0
  | Literal _ | AnyNoNL | In _ => 1
  | Seq r1 r2 => min_len r1 + min_len r2
  | Branch r1 r2 => Nat.min (min_len r1) (min_len r2)
  end.

(** Every match of the pattern passes through the set [[.]]. *)
Fixpoint needs_dot (r : regex) : bool :=
  match r with
  | In [ItemLit c] => (c =? 46)%N
  | Seq r1 r2 => needs_dot r1 || needs_dot r2
  | Branch r1 r2 => needs_dot r1 && needs_dot r2
  | _ => false
  end.

(** The same character, or the same ASCII letter in the other case. *)
Definition same_letter (c d : N) : Prop :=
  d = c \/ ((c < 128)%N /\ (d < 128)%N /\ ascii_lower d = ascii_lower c).

(** The same text up to the case of its ASCII letters. *)
Definition same_text (s t : pystr) : Prop := Forall2 same_letter s t.

(** Two attempts that went the same way on two such texts. *)
Inductive same_outcome : outcome -> outcome -> Prop :=
| same_matched e e' : same_text e e' -> same_outcome (Matched e) (Matched e')
| same_failed : same_outcome Failed Failed
| same_exhausted : same_outcome Exhausted Exhausted.

Definition same_cont (k k' : cont) : Prop :=
  forall pw s t, same_text s t -> same_outcome (k pw s) (k' pw t).

(** ASCII text without a dot. *)
Definition ascii_dotless (s : pystr) : Prop :=
  Forall (fun c => (c < 128)%N /\ c <> 46%N) s.

End TwitterUtilsSpec.

(** ** Attribute access, [Status.Now] and the [__repr__] methods *)
Module ModelsMethods.
Import Models.

(** [v.name], for the attribute names that the models use: a model
    instance has the attributes that were set on it, decoded JSON has
    none of them. *)
Definition getattr (v : pyval) (name : string) : result pyval :=
  match v with
  | inr m =>
      match attrs_of m !! name with
      | Some x => Ok x
      | None => Raise AttributeError
      end
  | inl _ => Raise AttributeError
  end.

Definition setattr (self : model) (name : string) (v : pyval) : model :=
  Model (class_of self) (<[name := v]> (attrs_of self)).

(** The property [Status.Now]; [time_] is what the clock reads when the
    getter consults it.  The instance is returned with the result, since
    the getter may store the reading. *)
Definition Now (time_ : pyval) (self : model) : result pyval * model :=
  match getattr (Inst self) "_now" with
  | Ok (inl JNull) => (Ok time_, setattr self "_now" time_)
  | Ok v => (Ok v, self)
  | Raise e => (Raise e, self)
  end.

Definition Now_setter (self : model) (now : pyval) : model :=
  setattr self "_now" now.

(** A format string with the values that fill it. *)
Inductive formatted :=
| Format (template : string) (args : list pyval).

(** [List.__repr__] *)
Definition List_repr (self : model) : result formatted :=
  match getattr (Inst self) "id" with
  | Ok list_id =>
    match getattr (Inst self) "full_name" with
    | Ok full_name =>
      match getattr (Inst self) "slug" with
      | Ok slug =>
        match getattr (Inst self) "user" with
        | Ok u =>
          match getattr u "screen_name" with
          | Ok user =>
              Ok (Format "List(ID={list_id}, FullName={full_name}, Slug={slug}, User={user})"
                         [list_id; full_name; slug; user])
          | Raise e => Raise e
          end
        | Raise e => Raise e
        end
      | Raise e => Raise e
      end
    | Raise e => Raise e
    end
  | Raise e => Raise e
  end.

(** [Status.__repr__] *)
Definition Status_repr (self : model) : result formatted :=
  match getattr (Inst self) "user" with
  | Ok u =>
      if truthy u then
        match getattr (Inst self) "id" with
        | Ok id_ =>
          match getattr u "screen_name" with
          | Ok screen_name =>
            match getattr (Inst self) "created_at" with
            | Ok created_at =>
                Ok (Format "Status(ID=%s, screen_name='%s', created_at='%s')"
                           [id_; screen_name; created_at])
            | Raise e => Raise e
            end
          | Raise e => Raise e
          end
        | Raise e => Raise e
        end
      else
        match getattr (Inst self) "id" with
        | Ok id_ =>
          match getattr (Inst self) "created_at" with
          | Ok created_at =>
              Ok (Format "Status(ID=%s,  created_at='%s')" [id_; created_at])
          | Raise e => Raise e
          end
        | Raise e => Raise e
        end
  | Raise e => Raise e
  end.

End ModelsMethods.

Module ModelsNotions.
Import Models.

(** What can be unpacked as keyword arguments. *)
Definition is_mapping (v : pyval) : bool :=
  match v with inl (JDict _) => true | _ => false end.

(** What [in] can be asked of. *)
Definition is_container (v : pyval) : bool :=
  match v with
  | inl (JList _) | inl (JDict _) | inl (JStr _) => true
  | _ => false
  end.

(** The keyword arguments that a constructor raises on. *)
Definition rejected (cls : model_class) (kwargs : gmap string pyval) : Prop :=
  (cls = List_ /\ exists u, kwargs !! "user" = Some u /\ is_mapping u = false)
  \/ (cls = UserStatus
      /\ exists c, kwargs !! "connections" = Some c /\ is_container c = false).

(** The keyword arguments that a constructor reads. *)
Definition reads (cls : model_class) (k : string) : Prop :=
  is_Some (param_defaults cls !! k) \/ (cls = UserStatus /\ k = "connections"%string).

(** The value of a keyword argument, [None] when it is not given. *)
Definition kwarg (kwargs : gmap string pyval) (k : string) : pyval :=
  default (Data JNull) (kwargs !! k).

End ModelsNotions.

(** * Proofs *)

(** * Properties of the matcher *)
Module SreFacts.
Import Sre SreSpec.

Section WithTables.
Variable uni_word : N -> bool.
Variable uni_fold : N -> N.

Local Abbreviation rmatch := (rmatch uni_word uni_fold).
Local Abbreviation match_at := (match_at uni_word uni_fold).
Local Abbreviation scan := (scan uni_word uni_fold).
Local Abbreviation findall := (findall uni_word uni_fold).
Local Abbreviation after := (after uni_word).
Local Abbreviation is_word := (is_word uni_word).

(** A loop whose body converges never exhausts a budget larger than the
    remaining text: every iteration consumes a character. *)
Lemma star_loop_converges body k :
  (forall pw s k', converging k' -> body pw s k' <> Exhausted) ->
  converging k ->
  forall n pw s, (length s < n)%nat -> star_loop body k n pw s <> Exhausted.
Proof.
  intros Hbody Hk n. induction n as [|n IH]; intros pw s Hlen; [lia|].
  simpl.
  pose (k' := fun (pw' : bool) (s' : pystr) =>
    if (length s' <? length s)%nat then star_loop body k n pw' s' else Failed).
  assert (Hk' : converging k').
  { intros pw' s'. unfold k'.
    destruct (Nat.ltb_spec (length s') (length s)); [apply IH; lia|discriminate]. }
  specialize (Hbody pw s k' Hk'). fold k'.
  destruct (body pw s k'); [discriminate| apply Hk | congruence].
Qed.

Lemma rmatch_converges r :
  forall pw s k, converging k -> rmatch r pw s k <> Exhausted.
Proof.
  induction r; intros pw s k Hk; cbn [Sre.rmatch].
  - apply Hk.
  - destruct s; [discriminate|]. destruct (lit_match _ _ _); [apply Hk|discriminate].
  - destruct s; [discriminate|]. destruct (_ =? _)%N; [discriminate|apply Hk].
  - destruct s; [discriminate|]. destruct (in_class _ _ _ _); [apply Hk|discriminate].
  - destruct (xorb _ _); [apply Hk|discriminate].
  - apply IHr1. intros pw' s'. by apply IHr2.
  - specialize (IHr1 pw s k Hk). specialize (IHr2 pw s k Hk).
    destruct (rmatch r1 pw s k); congruence.
  - apply star_loop_converges; [intros; by apply IHr|done|lia].
Qed.

Lemma match_at_converges r pw s : match_at r pw s <> Exhausted.
Proof. apply rmatch_converges. intros ? ?. discriminate. Qed.

Lemma scan_total r s : forall pw skip, is_Some (scan r pw s skip).
Proof.
  induction s as [|c s IH]; intros pw skip.
  - destruct skip; simpl; [|by eexists].
    pose proof (match_at_converges r pw []) as Hc.
    destruct (match_at r pw []); [by eexists|by eexists|done].
  - destruct skip; simpl; [|apply IH].
    pose proof (match_at_converges r pw (c :: s)) as Hc.
    destruct (match_at r pw (c :: s)); [|apply IH|done].
    destruct (IH (is_word c) (Nat.pred (length (c :: s) - length rest))) as [ms Hms].
    simpl in Hms. rewrite Hms. by eexists.
Qed.

Lemma after_app pw pre1 pre2 : after pw (pre1 ++ pre2) = after (after pw pre1) pre2.
Proof. apply fold_left_app. Qed.

(** *** The matcher and the grammar *)

(** What the grammar derives is a prefix of the text, not empty for a
    consuming pattern. *)
Lemma derives_prefix r pw s pw' s' :
  derives uni_word uni_fold r pw s pw' s' ->
  exists pre, s = pre ++ s' /\ pw' = after pw pre
              /\ (consumes r = true -> pre <> []).
Proof.
  induction 1 as [pw s|p c pw s _|c pw s _|items c pw s _|pw s _
                 |r1 r2 pw s pw1 s1 pw2 s2 _ IH1 _ IH2
                 |r1 r2 pw s pw' s' _ IH|r1 r2 pw s pw' s' _ IH
                 |r pw s|r pw s pw1 s1 pw2 s2 _ _ IH1 _ IH2].
  - exists []. done.
  - exists [c]. done.
  - exists [c]. done.
  - exists [c]. done.
  - exists []. done.
  - destruct IH1 as (u & -> & -> & H1), IH2 as (v & -> & -> & H2).
    exists (u ++ v). rewrite after_app, app_assoc. split_and!; [done..|].
    simpl. intros [?|?]%orb_true_iff Happ; apply app_eq_nil in Happ as [? ?]; tauto.
  - destruct IH as (u & -> & -> & H1). exists u. split_and!; [done..|].
    simpl. intros [? ?]%andb_true_iff. auto.
  - destruct IH as (u & -> & -> & H1). exists u. split_and!; [done..|].
    simpl. intros [? ?]%andb_true_iff. auto.
  - exists []. done.
  - destruct IH1 as (u & -> & -> & _), IH2 as (v & -> & -> & _).
    exists (u ++ v). rewrite after_app, app_assoc. done.
Qed.

(** Soundness: a result of the matcher comes from a derivation of the
    grammar followed by the continuation. *)
Lemma rmatch_sound r : forall pw s k e,
  rmatch r pw s k = Matched e ->
  exists pw' s', derives uni_word uni_fold r pw s pw' s'
                 /\ k pw' s' = Matched e.
Proof.
  induction r as [|p| |items| |r1 IH1 r2 IH2|r1 IH1 r2 IH2|r IH];
    intros pw s k e H; cbn [Sre.rmatch] in H.
  - exists pw, s. split; [constructor|done].
  - destruct s as [|a s]; [discriminate|].
    destruct (lit_match _ _ _) eqn:Hl; [|discriminate].
    exists (is_word a), s. split; [by constructor|done].
  - destruct s as [|a s]; [discriminate|].
    destruct (_ =? _)%N eqn:Hl; [discriminate|].
    exists (is_word a), s. split; [by constructor|done].
  - destruct s as [|a s]; [discriminate|].
    destruct (in_class _ _ _ _) eqn:Hl; [|discriminate].
    exists (is_word a), s. split; [by constructor|done].
  - destruct (xorb _ _) eqn:Hb; [|discriminate].
    exists pw, s. split; [by constructor|done].
  - apply IH1 in H as (pw1 & s1 & H1 & H).
    apply IH2 in H as (pw2 & s2 & H2 & H).
    exists pw2, s2. split; [by econstructor|done].
  - destruct (rmatch r1 pw s k) eqn:H1.
    + injection H as ->. apply IH1 in H1 as (pw' & s' & ? & ?).
      exists pw', s'. split; [by apply derives_branch_l|done].
    + apply IH2 in H as (pw' & s' & ? & ?).
      exists pw', s'. split; [by apply derives_branch_r|done].
    + discriminate.
  - revert H. generalize (S (length s)). intros n. revert pw s.
    induction n as [|n IHn]; intros pw s H; [discriminate|].
    simpl in H. destruct (rmatch r pw s _) eqn:Hb; [| |discriminate].
    + injection H as ->. apply IH in Hb as (pw1 & s1 & H1 & Hk).
      destruct (Nat.ltb_spec (length s1) (length s)); [|discriminate].
      apply IHn in Hk as (pw2 & s2 & H2 & Hk).
      exists pw2, s2. split; [by eapply derives_star_step|done].
    + exists pw, s. split; [constructor|done].
Qed.

(** The result does not depend on continuations beyond their values. *)
Lemma star_loop_ext body k1 k2 :
  (forall pw s ka kb, (forall pw' s', ka pw' s' = kb pw' s') ->
                      body pw s ka = body pw s kb) ->
  (forall pw s, k1 pw s = k2 pw s) ->
  forall n pw s, star_loop body k1 n pw s = star_loop body k2 n pw s.
Proof.
  intros Hbody Hk n. induction n as [|n IH]; intros pw s; [done|]. simpl.
  rewrite (Hbody pw s _ (fun pw' s' =>
    if (length s' <? length s)%nat then star_loop body k2 n pw' s' else Failed)).
  - by rewrite Hk.
  - intros pw' s'. by rewrite IH.
Qed.

Lemma rmatch_ext r : forall pw s k1 k2,
  (forall pw' s', k1 pw' s' = k2 pw' s') ->
  rmatch r pw s k1 = rmatch r pw s k2.
Proof.
  induction r as [|p| |items| |r1 IH1 r2 IH2|r1 IH1 r2 IH2|r IH];
    intros pw s k1 k2 Hk; cbn [Sre.rmatch].
  - apply Hk.
  - destruct s; [done|]. by rewrite Hk.
  - destruct s; [done|]. by rewrite Hk.
  - destruct s; [done|]. by rewrite Hk.
  - by rewrite Hk.
  - apply IH1. intros. by apply IH2.
  - by rewrite (IH1 _ _ k1 k2), (IH2 _ _ k1 k2).
  - apply star_loop_ext; [|done]. intros. by apply IH.
Qed.

(** Any budget larger than the remaining text gives the same result. *)
Lemma star_loop_budget r k : forall n m pw s,
  (length s < n)%nat -> (length s < m)%nat ->
  star_loop (rmatch r) k n pw s = star_loop (rmatch r) k m pw s.
Proof.
  induction n as [|n IH]; intros [|m] pw s Hn Hm; try lia. simpl.
  rewrite (rmatch_ext r pw s _ (fun pw' s' =>
    if (length s' <? length s)%nat
    then star_loop (rmatch r) k m pw' s' else Failed)); [done|].
  intros pw' s'. destruct (Nat.ltb_spec (length s') (length s)); [|done].
  apply IH; lia.
Qed.

(** Completeness: where the grammar derives a match after which the
    continuation succeeds, the matcher succeeds (with that match or with
    one it tries earlier). *)
Lemma rmatch_complete r pw s pw' s' :
  derives uni_word uni_fold r pw s pw' s' ->
  forall k, converging k -> (exists e, k pw' s' = Matched e) ->
            exists e, rmatch r pw s k = Matched e.
Proof.
  induction 1 as [pw s|p c pw s Hl|c pw s Hl|items c pw s Hl|pw s Hb
                 |r1 r2 pw s pw1 s1 pw2 s2 _ IH1 _ IH2
                 |r1 r2 pw s pw' s' _ IH|r1 r2 pw s pw' s' _ IH
                 |r pw s|r pw s pw1 s1 pw2 s2 Hlt _ IH1 _ IH2];
    intros k Hk Hsucc; cbn [Sre.rmatch].
  - done.
  - by rewrite Hl.
  - by rewrite Hl.
  - by rewrite Hl.
  - by rewrite Hb.
  - apply IH1; [intros ? ?; by apply rmatch_converges|]. by apply IH2.
  - destruct (IH k Hk Hsucc) as [e ->]. by eexists.
  - pose proof (rmatch_converges r1 pw s k Hk).
    destruct (rmatch r1 pw s k); [by eexists|by apply IH|done].
  - simpl.
    set (k' := fun (pw' : bool) (s' : pystr) =>
      if (length s' <? length s)%nat
      then star_loop (rmatch r) k (length s) pw' s' else Failed).
    assert (Hk' : converging k').
    { intros pw' s'. unfold k'.
      destruct (Nat.ltb_spec (length s') (length s)); [|discriminate].
      apply star_loop_converges; [intros; by apply rmatch_converges|done|done]. }
    pose proof (rmatch_converges r pw s k' Hk').
    destruct (rmatch r pw s k'); [by eexists|done|done].
  - simpl.
    set (k' := fun (pw' : bool) (s' : pystr) =>
      if (length s' <? length s)%nat
      then star_loop (rmatch r) k (length s) pw' s' else Failed).
    assert (Hk' : converging k').
    { intros pw' s'. unfold k'.
      destruct (Nat.ltb_spec (length s') (length s)); [|discriminate].
      apply star_loop_converges; [intros; by apply rmatch_converges|done|done]. }
    destruct (IH1 k' Hk') as [e He]; [|rewrite He; by eexists].
    unfold k'. destruct (Nat.ltb_spec (length s1) (length s)); [|lia].
    destruct (IH2 k Hk Hsucc) as [e He]. exists e. rewrite <- He.
    cbn [Sre.rmatch]. apply star_loop_budget; lia.
Qed.

(** The matcher finds a match at a position exactly when the grammar
    derives one there. *)
Lemma matches_at_derives r pw s :
  matches_at uni_word uni_fold r pw s
  <-> exists pw' s', derives uni_word uni_fold r pw s pw' s'.
Proof.
  split.
  - intros [e He]. apply rmatch_sound in He as (pw' & s' & H & _). eauto.
  - intros (pw' & s' & H).
    apply (rmatch_complete _ _ _ _ _ H (fun _ s' => Matched s')).
    + intros ? ?. discriminate.
    + by eexists.
Qed.

Lemma matches_in_occurs r pw s :
  matches_in uni_word uni_fold r pw s <-> occurs uni_word uni_fold r pw s.
Proof.
  unfold matches_in, occurs. split.
  - intros (pre & suf & Hs & H). apply matches_at_derives in H as (pw' & s' & H).
    by exists pre, suf, pw', s'.
  - intros (pre & suf & pw' & s' & Hs & H). exists pre, suf. split; [done|].
    apply matches_at_derives. eauto.
Qed.

(** A match is a prefix of the text; a consuming pattern matches at
    least one character. *)
Lemma match_at_prefix r pw s e :
  match_at r pw s = Matched e ->
  exists pre, s = pre ++ e /\ (consumes r = true -> pre <> []).
Proof.
  intros H. apply rmatch_sound in H as (pw' & s' & H & [= ->]).
  apply derives_prefix in H as (pre & -> & _ & Hc). eauto.
Qed.

(** For a consuming pattern, [scan] reports exactly the matches that
    [scanned] describes. *)
Lemma scan_scanned r s : consumes r = true -> forall pw skip ms,
  (skip <= length s)%nat ->
  scan r pw s skip = Some ms ->
  scanned uni_word uni_fold r (after pw (take skip s)) ms (drop skip s).
Proof.
  intros Hr. induction s as [|c s IH]; intros pw skip ms Hskip H.
  - destruct skip; [|simpl in Hskip; lia]. simpl in *.
    destruct (match_at r pw []) eqn:Hm; simplify_eq/=.
    + apply match_at_prefix in Hm as (pre & Hpre & Hne).
      symmetry in Hpre. apply app_eq_nil in Hpre as [-> _]. by destruct Hne.
    + constructor. intros [e He]. congruence.
  - destruct skip; simpl in H.
    + simpl. destruct (match_at r pw (c :: s)) eqn:Hm; [| |discriminate].
      * destruct (scan r (is_word c) s _) as [ms'|] eqn:Hs; [|discriminate].
        simpl in H. injection H as <-.
        pose proof Hm as Hm'.
        apply match_at_prefix in Hm' as (pre & Hpre & Hne).
        destruct pre as [|c' pre]; [by destruct Hne|].
        simpl in Hpre. injection Hpre as <- ->.
        assert (Hn : (S (length (pre ++ rest)) - length rest)%nat = S (length pre)).
        { rewrite length_app. lia. }
        rewrite Hn in Hs |- *. simpl in Hs.
        apply IH in Hs; [|rewrite length_app; lia].
        rewrite take_app_length, drop_app_length in Hs.
        rewrite firstn_cons, take_app_length.
        apply (scanned_match _ _ _ pw (c :: pre)); done.
      * apply (IH _ 0%nat) in H; [|lia]. by apply scanned_gap.
    + simpl in Hskip. apply IH in H; [done|lia].
Qed.

Lemma scanned_length r pw ms s :
  scanned uni_word uni_fold r pw ms s -> (total_length ms <= length s)%nat.
Proof.
  induction 1; simpl; [lia|lia|]. rewrite length_app. lia.
Qed.

Lemma length_concat_total (ms : list pystr) : length (concat ms) = total_length ms.
Proof. induction ms as [|m ms IH]; simpl; [done|]. by rewrite length_app, IH. Qed.

(** [scan] started at a position reports a match exactly when the
    pattern matches somewhere from there on. *)
Lemma scan_nonempty r s : forall pw ms,
  scan r pw s 0 = Some ms -> (ms <> [] <-> matches_in uni_word uni_fold r pw s).
Proof.
  unfold matches_in, matches_at.
  induction s as [|c s IH]; intros pw ms H; simpl in H.
  - destruct (match_at r pw []) eqn:Hm; simplify_eq/=.
    + split; [|done]. intros _. exists [], []. eauto.
    + split; [done|]. intros (pre & suf & Hs & e & He).
      symmetry in Hs. apply app_eq_nil in Hs as [-> ->]. simpl in He. congruence.
  - destruct (match_at r pw (c :: s)) eqn:Hm; [| |discriminate].
    + destruct (scan r _ s _); simplify_eq/=. split; [|done].
      intros _. exists [], (c :: s). eauto.
    + apply IH in H. rewrite H. split.
      * intros (pre & suf & -> & He). exists (c :: pre), suf. done.
      * intros (pre & suf & Hs & e & He). destruct pre as [|c' pre]; simpl in *.
        { subst suf. congruence. }
        injection Hs as <- ->. exists pre, suf. eauto.
Qed.

End WithTables.
End SreFacts.

(** * Properties of the estimator and of [is_url] *)
Module TwitterUtilsFacts.
Import Sre SreSpec SreFacts TwitterUtils.

(** No label holds a character that the pattern syntax treats specially:
    each of them stands in the pattern for itself. *)
Lemma TLDS_plain : forallb (forallb (fun c => negb (special c))) TLDS = true.
Proof. vm_compute. reflexivity. Qed.

Lemma TLDS_length : length TLDS = 1063%nat.
Proof. vm_compute. reflexivity. Qed.

Lemma URL_REGEXP_consumes : consumes URL_REGEXP = true.
Proof. vm_compute. reflexivity. Qed.

Section WithTables.
Variable uni_word : N -> bool.
Variable uni_fold : N -> N.

Local Abbreviation findall := (findall uni_word uni_fold).
Local Abbreviation scanned := (scanned uni_word uni_fold).
Local Abbreviation occurs := (occurs uni_word uni_fold).
Local Abbreviation calc_expected_status_length :=
  (calc_expected_status_length uni_word uni_fold).
Local Abbreviation is_url := (is_url uni_word uni_fold).

(** [findall] always returns, what it returns are the matches of the
    pattern from left to right, and there is one exactly when the
    grammar has a match somewhere in the status. *)
Lemma findall_URL_REGEXP status :
  exists ms, findall URL_REGEXP status = Some ms
             /\ scanned URL_REGEXP false ms status
             /\ (ms <> [] <-> occurs URL_REGEXP false status).
Proof.
  destruct (scan_total uni_word uni_fold URL_REGEXP status false 0) as [ms Hms].
  exists ms. split_and!;
    [done| |rewrite <- matches_in_occurs; by apply scan_nonempty].
  apply (scan_scanned _ _ _ _ URL_REGEXP_consumes false 0%nat) in Hms; [done|lia].
Qed.

(** A match of the pattern is never empty. *)
Lemma URL_REGEXP_match_nonempty pw s e :
  match_at uni_word uni_fold URL_REGEXP pw s = Matched e ->
  (length e < length s)%nat.
Proof.
  intros (pre & -> & Hne)%match_at_prefix. specialize (Hne URL_REGEXP_consumes).
  rewrite length_app. destruct pre; [done|simpl; lia].
Qed.

(** C3. For every status and every short_url_length,
    calc_expected_status_length returns the length of the status, minus
    the lengths of the matches of the URL pattern (taken from left to
    right without overlap), plus short_url_length for every match.  When
    the pattern matches nowhere the result is the length of the status,
    and the empty status gives 0. *)
Theorem calc_expected_status_length_formula (status : pystr) (short_url_length : Z) :
  (exists ms,
      findall URL_REGEXP status = Some ms
      /\ scanned URL_REGEXP false ms status
      /\ calc_expected_status_length status short_url_length =
           Some (Z.of_nat (length status) - Z.of_nat (total_length ms)
                 + short_url_length * Z.of_nat (length ms))%Z)
  /\ (~ occurs URL_REGEXP false status ->
      calc_expected_status_length status short_url_length =
        Some (Z.of_nat (length status)))
  /\ calc_expected_status_length [] short_url_length = Some 0%Z.
Proof.
  destruct (findall_URL_REGEXP status) as (ms & Hms & Hsc & Hne).
  assert (Hcalc : calc_expected_status_length status short_url_length =
           Some (Z.of_nat (length status) - Z.of_nat (total_length ms)
                 + short_url_length * Z.of_nat (length ms))%Z).
  { unfold TwitterUtils.calc_expected_status_length. rewrite Hms. simpl.
    f_equal. rewrite length_concat_total.
    destruct ms as [|m ms]; [simpl; lia|]. done. }
  split_and!.
  - exists ms. done.
  - intros Hno. rewrite Hcalc. destruct ms as [|m ms].
    + simpl. f_equal. lia.
    + destruct Hno. by apply Hne.
  - assert (Hnil : findall URL_REGEXP [] = Some []) by (vm_compute; reflexivity).
    unfold TwitterUtils.calc_expected_status_length. rewrite Hnil. simpl.
    f_equal. lia.
Qed.

(** C6. With short_url_length = 23 the status
    http://example.com/path is one match of the pattern from its first
    to its last character, and its expected length is 23. *)
Theorem calc_expected_status_length_bare_url :
  findall URL_REGEXP (utf8 "http://example.com/path")
    = Some [utf8 "http://example.com/path"]
  /\ calc_expected_status_length (utf8 "http://example.com/path") 23 = Some 23%Z.
Proof. split; vm_compute; reflexivity. Qed.

(** C7. is_url returns True exactly when the URL pattern matches
    somewhere in the text, and False otherwise; it is False on
    "plain text, no links" and True on "see www.example.com". *)
Theorem is_url_iff_match :
  (forall text, (is_url text = Some true <-> occurs URL_REGEXP false text)
                /\ (is_url text = Some false <-> ~ occurs URL_REGEXP false text))
  /\ is_url (utf8 "plain text, no links") = Some false
  /\ is_url (utf8 "see www.example.com") = Some true.
Proof.
  split_and!; [|vm_compute; reflexivity..].
  intros text. destruct (findall_URL_REGEXP text) as (ms & Hms & _ & Hne).
  unfold TwitterUtils.is_url. rewrite Hms. simpl. rewrite <- Hne.
  destruct ms; intuition congruence.
Qed.

(** C8. On every string both functions return a value: the matcher
    never exhausts a loop, so calc_expected_status_length yields an
    integer and is_url a boolean.  At worst, when the pattern matches
    nowhere, the integer is the unmodified length.  The result depends
    on the arguments only. *)
Theorem estimator_never_fails (status : pystr) (short_url_length : Z) :
  (exists n, calc_expected_status_length status short_url_length = Some n
             /\ (~ occurs URL_REGEXP false status ->
                 n = Z.of_nat (length status))
             /\ forall n', calc_expected_status_length status short_url_length
                             = Some n' -> n' = n)
  /\ (exists b, is_url status = Some b
                /\ forall b', is_url status = Some b' -> b' = b).
Proof.
  destruct (findall_URL_REGEXP status) as (ms & Hms & _ & Hne).
  unfold TwitterUtils.calc_expected_status_length, TwitterUtils.is_url.
  rewrite Hms. simpl. split.
  - eexists. split_and!; [done| |congruence].
    intros Hno. destruct ms as [|m ms]; [simpl; lia|]. destruct Hno. by apply Hne.
  - eexists. split; [done|congruence].
Qed.

(** C9. The estimate is not bounded by the number of characters: the
    status a.co is one match of 4 characters, shorter than a
    short_url_length of 23, and its expected length 23 exceeds its
    length. *)
Theorem calc_expected_status_length_can_grow :
  exists (status m : pystr) (n : Z),
    findall URL_REGEXP status = Some [m]
    /\ (Z.of_nat (length m) < 23)%Z
    /\ calc_expected_status_length status 23 = Some n
    /\ (Z.of_nat (length status) < n)%Z.
Proof.
  exists (utf8 "a.co"), (utf8 "a.co"), 23%Z.
  split_and!; [vm_compute; reflexivity | vm_compute; reflexivity
              | vm_compute; reflexivity | vm_compute; reflexivity].
Qed.

End WithTables.
End TwitterUtilsFacts.

(** * Properties of [parse_media_file] *)
Module MediaFileFacts.
Import MediaFile.

Lemma type_in_disjoint t :
  type_in t img_formats = true -> type_in t video_formats = true -> False.
Proof.
  destruct t as [t|]; [|done]. simpl. intros Hi Hv.
  rewrite orb_false_r in Hv. apply String.eqb_eq in Hv as ->. done.
Qed.

Section WithEnv.
Variable guess_type : string -> option string.
Variable realpath : string -> string.

Local Abbreviation acquire := (acquire realpath).
Local Abbreviation validate := (validate guess_type).
Local Abbreviation parse_media_file := (parse_media_file guess_type realpath).

(** [parse_media_file] is the acquisition followed by the validation of
    what it acquired. *)
Lemma parse_media_file_unfold passed_media w :
  parse_media_file passed_media w =
    match acquire passed_media w with
    | (Ok r, w') => (validate r, w')
    | (Raise e, w') => (Raise e, w')
    end.
Proof. reflexivity. Qed.

Lemma quiet_ret {A} (a : A) : quiet (mret a).
Proof. intros w e w' [=]. Qed.

Lemma quiet_raise {A} e : (forall msg, e <> TwitterError msg) -> quiet (@raise A e).
Proof. intros He w e' w' [= <- _]. done. Qed.

Lemma quiet_bind {A B} (m : io A) (f : A -> io B) :
  quiet m -> (forall a, quiet (f a)) -> quiet (m ≫= f).
Proof.
  intros Hm Hf w e w' H. unfold mbind, io_bind, bind in H.
  destruct (m w) as [[a|e0] w0] eqn:Hmw.
  - by eapply Hf.
  - injection H as <- <-. by eapply Hm.
Qed.

Lemma quiet_with_stream {A} h (k : fileobj -> io A) :
  (forall f, quiet (k f)) -> quiet (with_stream h k).
Proof.
  intros Hk w e w' H. unfold with_stream in H.
  destruct (heap w !! h); [by eapply Hk|]. by injection H as <- <-.
Qed.

Lemma quiet_seek h off wh : quiet (seek h off wh).
Proof.
  apply quiet_with_stream. intros f.
  destruct (fo_closed f); [by apply quiet_raise|].
  destruct (fo_seekable f); simpl; [|by apply quiet_raise].
  intros w e w' [=].
Qed.

Lemma quiet_tell h : quiet (tell h).
Proof.
  apply quiet_with_stream. intros f.
  destruct (fo_closed f); [by apply quiet_raise|apply quiet_ret].
Qed.

Lemma quiet_name_of h : quiet (name_of h).
Proof. apply quiet_with_stream. intros f. apply quiet_ret. Qed.

Lemma quiet_length_of h : quiet (length_of h).
Proof. apply quiet_with_stream. intros f. apply quiet_ret. Qed.

Lemma quiet_urlopen url : quiet (urlopen url).
Proof.
  intros w e w' H. unfold urlopen in H.
  destruct (remote w !! url); [done|]. by injection H as <- <-.
Qed.

Lemma quiet_with_open {A} path (body : nat -> io A) :
  (forall f, quiet (body f)) -> quiet (with_open path body).
Proof.
  intros Hb w e w' H. unfold with_open, py_open in H.
  destruct (files w !! path); [|by injection H as <- <-].
  destruct (body _ _) as [r w2] eqn:Hbody.
  injection H as -> <-. by eapply Hb.
Qed.

Lemma quiet_try_pass {A} (m : io A) : quiet (try_pass m).
Proof. intros w e w' [=]. Qed.

(** The acquisition raises what the environment raises, never a
    [TwitterError]. *)
Lemma acquire_quiet passed_media : quiet (acquire passed_media).
Proof.
  unfold MediaFile.acquire. apply quiet_bind.
  - destruct passed_media as [s|h].
    + destruct (String.prefix _ _).
      * apply quiet_bind; [apply quiet_urlopen|]. intros.
        apply quiet_bind; [apply quiet_length_of|]. intros. apply quiet_ret.
      * apply quiet_with_open. intros.
        apply quiet_bind; [apply quiet_seek|]. intros.
        apply quiet_bind; [apply quiet_tell|]. intros. apply quiet_ret.
    + apply quiet_bind; [apply quiet_name_of|]. intros.
      apply quiet_bind; [apply quiet_seek|]. intros.
      apply quiet_bind; [apply quiet_tell|]. intros. apply quiet_ret.
  - intros r. apply quiet_bind; [apply quiet_try_pass|]. intros. apply quiet_ret.
Qed.

(** The four outcomes of the validation. *)
Lemma validate_cases h name size :
  let t := guess_type (basename name) in
  (type_in t img_formats = true /\ (size > 5 * 1048576)%Z
   /\ validate (h, name, size)
        = Raise (TwitterError "Images must be less than 5MB."))
  \/ (type_in t video_formats = true /\ (size > 15 * 1048576)%Z
      /\ validate (h, name, size)
           = Raise (TwitterError "Videos must be less than 15MB."))
  \/ (type_in t img_formats = false /\ type_in t video_formats = false
      /\ validate (h, name, size)
           = Raise (TwitterError "Media type could not be determined."))
  \/ (((type_in t img_formats = true /\ (size <= 5 * 1048576)%Z)
       \/ (type_in t video_formats = true /\ (size <= 15 * 1048576)%Z))
      /\ validate (h, name, size) = Ok (mkDescriptor h name size t)).
Proof.
  intros t. unfold MediaFile.validate. fold t.
  destruct (type_in t img_formats) eqn:Hi, (type_in t video_formats) eqn:Hv;
    try (exfalso; by eapply type_in_disjoint); simpl.
  - destruct (Z.gtb_spec size (5 * 1048576)); [left|right; right; right];
      (split_and!; [tauto || lia.. | done]).
  - destruct (Z.gtb_spec size (15 * 1048576)); [right; left|right; right; right];
      (split_and!; [tauto || lia.. | done]).
  - right. right. left. done.
Qed.


(** Where the stream of a local path ends up: [with open(...)] closes it
    before the function reaches its last [seek]. *)
Lemma parse_media_file_local_path_closed s w d w' :
  String.prefix "http" s = false ->
  parse_media_file (RefStr s) w = (Ok d, w') ->
  exists f, heap w' !! data_file d = Some f
            /\ fo_closed f = true /\ fo_pos f = fo_size f
            /\ filename d = basename s /\ file_size d = fo_size f.
Proof.
  intros Hs H. rewrite parse_media_file_unfold in H.
  destruct (acquire (RefStr s) w) as [[[[h name] size]|e] w1] eqn:Hacq; [|done].
  apply pair_equal_spec in H as [Hv <-].
  assert (Hd : data_file d = h /\ filename d = name /\ file_size d = size).
  { destruct (validate_cases h name size) as
      [(_ & _ & Hr)|[(_ & _ & Hr)|[(_ & _ & Hr)|(_ & Hr)]]];
      rewrite Hr in Hv; simplify_eq. done. }
  destruct Hd as (-> & -> & ->). clear Hv.
  unfold MediaFile.acquire in Hacq. rewrite Hs in Hacq.
  unfold mbind, io_bind, bind, with_open, py_open in Hacq.
  destruct (files w !! realpath s) as [sz|] eqn:Hf; [|done].
  unfold seek at 1, with_stream in Hacq. simpl in Hacq.
  rewrite lookup_app_r, Nat.sub_diag in Hacq by lia. simpl in Hacq.
  unfold tell, with_stream in Hacq. simpl in Hacq.
  rewrite list_lookup_insert_eq in Hacq by (rewrite length_app; simpl; lia).
  simpl in Hacq.
  unfold close, with_stream in Hacq. simpl in Hacq.
  rewrite list_lookup_insert_eq in Hacq by (rewrite length_app; simpl; lia).
  simpl in Hacq.
  unfold try_pass, seek, with_stream in Hacq. simpl in Hacq.
  rewrite list_lookup_insert_eq in Hacq
    by (rewrite length_insert, length_app; simpl; lia).
  simpl in Hacq. injection Hacq as <- <- <- <-. simpl.
  eexists. split; [apply list_lookup_insert_eq;
                   rewrite length_insert, length_app; simpl; lia|].
  simpl. split_and!; try done; lia.
Qed.

(** The sibling branch: a seekable stream passed by the caller comes back
    open and rewound. *)
Lemma parse_media_file_stream_rewound h f w d w' :
  heap w !! h = Some f -> fo_closed f = false -> fo_seekable f = true ->
  parse_media_file (RefStream h) w = (Ok d, w') ->
  data_file d = h /\ file_size d = fo_size f
  /\ readable_from_start h w'.
Proof.
  intros Hh Hc Hsk H. rewrite parse_media_file_unfold in H.
  destruct (acquire (RefStream h) w) as [[[[h' name] size]|e] w1] eqn:Hacq; [|done].
  apply pair_equal_spec in H as [Hv <-].
  assert (Hd : data_file d = h' /\ file_size d = size).
  { destruct (validate_cases h' name size) as
      [(_ & _ & Hr)|[(_ & _ & Hr)|[(_ & _ & Hr)|(_ & Hr)]]];
      rewrite Hr in Hv; simplify_eq. done. }
  destruct Hd as (-> & ->). clear Hv.
  assert (Hlen : (h < length (heap w))%nat) by (by eapply lookup_lt_Some).
  unfold MediaFile.acquire in Hacq.
  unfold mbind, io_bind, bind, name_of, with_stream in Hacq.
  rewrite Hh in Hacq. simpl in Hacq.
  unfold seek at 1, with_stream in Hacq. rewrite Hh, Hc, Hsk in Hacq.
  simpl in Hacq.
  unfold tell, with_stream in Hacq. simpl in Hacq.
  rewrite list_lookup_insert_eq in Hacq by done.
  simpl in Hacq. rewrite Hc in Hacq. simpl in Hacq.
  unfold try_pass, seek, with_stream in Hacq. simpl in Hacq.
  rewrite list_lookup_insert_eq in Hacq by done.
  simpl in Hacq. rewrite Hc, Hsk in Hacq. simpl in Hacq.
  injection Hacq as <- <- <- <-. split_and!; [done|lia|].
  eexists. split; [apply list_lookup_insert_eq; by rewrite length_insert|].
  done.
Qed.

End WithEnv.

(** C1. For the local file photo.jpg of 4*1048576 bytes,
    parse_media_file returns the file name, the size and the type
    image/jpeg, but the stream it returns is closed and stands at the end
    of the file: the caller cannot read it. *)
Theorem parse_media_file_local_file_closed :
  exists w',
    parse_media_file sample_guess_type photo_realpath (RefStr "photo.jpg") photo_world
      = (Ok (mkDescriptor 0 "photo.jpg" (4 * 1048576) (Some "image/jpeg")), w')
    /\ heap w' !! 0%nat
         = Some (mkFile "/home/u/photo.jpg" (4 * 1048576) (4 * 1048576) true true)
    /\ ~ readable_from_start 0 w'
    /\ fst (read 0 w') = Raise ValueError.
Proof.
  eexists. split; [vm_compute; reflexivity|].
  split_and!; [done| |done].
  intros (f & Hf & Hc & _). simpl in Hf. by simplify_eq.
Qed.


End MediaFileFacts.

(** * Properties of the models *)
Module ModelsFacts.
Import Models ModelsSpec.

(** ** Induction on decoded JSON *)

Lemma jsize_list_elem l x : x ∈ l -> (jsize x < jsize (JList l))%nat.
Proof.
  simpl. induction 1 as [x l|x y l _ IH]; simpl; lia.
Qed.

Lemma jsize_dict_lookup (d : gmap string json) k x :
  d !! k = Some x -> (jsize x < jsize (JDict d))%nat.
Proof.
  intros H. simpl.
  rewrite (map_fold_delete_L _ _ k x d); [lia| |done].
  intros. lia.
Qed.

Lemma json_ind' (P : json -> Prop) :
  P JNull -> (forall b, P (JBool b)) -> (forall z, P (JInt z)) ->
  (forall s, P (JStr s)) ->
  (forall l, Forall P l -> P (JList l)) ->
  (forall d, map_Forall (fun _ => P) d -> P (JDict d)) ->
  forall j, P j.
Proof.
  intros Hnull Hbool Hint Hstr Hlist Hdict j.
  induction j as [j IH] using (induction_ltof1 _ jsize). unfold ltof in IH.
  destruct j as [|b|z|s|l|d]; auto.
  - apply Hlist, Forall_forall. intros x Hx. by apply IH, jsize_list_elem.
  - apply Hdict. intros k x Hk. by eapply IH, jsize_dict_lookup.
Qed.

(** ** Python's equality on decoded JSON *)

Lemma map_fold_andb {A} (f : string -> A -> bool) (d : gmap string A) :
  map_fold (fun k x acc => f k x && acc) true d = true
  <-> map_Forall (fun k x => f k x = true) d.
Proof.
  apply (map_fold_weak_ind
           (fun r m => r = true <-> map_Forall (fun k x => f k x = true) m)).
  - split; [intros _; apply map_Forall_empty|done].
  - intros k x m r Hk IH. rewrite andb_true_iff, map_Forall_insert by done.
    by rewrite IH.
Qed.

Lemma json_eq_dict_unfold da db :
  json_eq (JDict da) (JDict db) =
    bool_decide (size da = size db)
    && map_fold (fun k x acc =>
                   match db !! k with
                   | Some y => json_eq x y
                   | None => false
                   end && acc) true da.
Proof. reflexivity. Qed.

Lemma json_eq_dict_spec da db :
  json_eq (JDict da) (JDict db) = true
  <-> size da = size db
      /\ forall k x, da !! k = Some x ->
                     exists y, db !! k = Some y /\ json_eq x y = true.
Proof.
  rewrite json_eq_dict_unfold, andb_true_iff, bool_decide_eq_true.
  rewrite (map_fold_andb (fun k x => match db !! k with
                                     | Some y => json_eq x y
                                     | None => false
                                     end)).
  unfold map_Forall. split; intros [Hs H]; (split; [done|]); intros k x Hk.
  - specialize (H k x Hk). destruct (db !! k); [eauto|done].
  - destruct (H k x Hk) as (y & -> & Hy). done.
Qed.

(** Maps of the same size, the keys of one among the keys of the other,
    have the same keys. *)
Lemma same_size_same_keys {A B} (da : gmap string A) (db : gmap string B) k :
  size da = size db ->
  (forall k, is_Some (da !! k) -> is_Some (db !! k)) ->
  da !! k = None -> db !! k = None.
Proof.
  intros Hs Hsub Hk.
  assert (Hdom : dom da = dom db).
  { apply set_subseteq_size_eq.
    - intros i. rewrite !elem_of_dom. apply Hsub.
    - rewrite !size_dom. lia. }
  apply not_elem_of_dom. rewrite <- Hdom. by apply not_elem_of_dom.
Qed.

(** [==] is equality once [True] and [False] are read as 1 and 0. *)
Lemma json_eq_norm a : forall b, json_eq a b = true <-> norm a = norm b.
Proof.
  induction a as [|x|x|x|la IH|da IH] using json_ind'; intros b.
  - destruct b; simpl; split; congruence.
  - destruct b as [|y|y| | |]; simpl; try (split; congruence).
    + destruct x, y; simpl; split; congruence.
    + rewrite Z.eqb_eq. split; congruence.
  - destruct b as [|y|y| | |]; simpl; try (split; congruence).
    + rewrite Z.eqb_eq. split; congruence.
    + rewrite Z.eqb_eq. split; congruence.
  - destruct b; simpl; try (split; congruence).
    rewrite String.eqb_eq. split; congruence.
  - destruct b as [| | | |lb|]; try (simpl; split; congruence).
    change (json_eq (JList la) (JList lb)) with
      ((fix list_eq (la lb : list json) {struct la} : bool :=
          match la, lb with
          | [], [] => true
          | x :: la', y :: lb' => json_eq x y && list_eq la' lb'
          | _, _ => false
          end) la lb).
    simpl norm.
    assert (Hl : forall lb,
      (fix list_eq (la lb : list json) {struct la} : bool :=
          match la, lb with
          | [], [] => true
          | x :: la', y :: lb' => json_eq x y && list_eq la' lb'
          | _, _ => false
          end) la lb = true <-> map norm la = map norm lb).
    { clear lb. induction IH as [|x la Hx _ IHl]; intros [|y lb]; simpl;
        try (split; congruence).
      rewrite andb_true_iff, Hx, IHl. split; [intros [-> ->]; done|].
      intros [= -> ->]. done. }
    rewrite Hl. split; congruence.
  - destruct b as [| | | | |db]; try (simpl; split; congruence).
    rewrite json_eq_dict_spec. simpl norm. split.
    + intros [Hs H]. f_equal. apply map_eq. intros k. rewrite !lookup_fmap.
      destruct (da !! k) as [x|] eqn:Hk.
      * destruct (H k x Hk) as (y & -> & Hy). simpl. f_equal.
        by apply (IH k x Hk).
      * rewrite (same_size_same_keys da db k Hs); [done| |done].
        intros i [x Hx]. destruct (H i x Hx) as (y & -> & _). by eexists.
    + intros [= Heq]. split.
      * by rewrite <- (map_size_fmap norm da), Heq, map_size_fmap.
      * intros k x Hk.
        assert (Hn : (norm <$> db) !! k = Some (norm x))
          by (by rewrite <- Heq, lookup_fmap, Hk).
        rewrite lookup_fmap in Hn. destruct (db !! k) as [y|]; [|done].
        exists y. split; [done|]. apply (IH k x Hk). simpl in Hn. congruence.
Qed.

Lemma dict_eq_norm da db : dict_eq da db = true <-> norm <$> da = norm <$> db.
Proof.
  unfold dict_eq. rewrite json_eq_norm. simpl. split; congruence.
Qed.

Lemma dict_eq_refl d : dict_eq d d = true.
Proof. by apply dict_eq_norm. Qed.

(** ** [AsDict] *)

Lemma AsDict_lookup cls attrs k :
  AsDict (Model cls attrs) !! k =
    param_defaults cls !! k ≫= fun _ => attrs !! k ≫= as_dict_value.
Proof.
  simpl. rewrite map_lookup_imap. destruct (param_defaults cls !! k); [|done].
  simpl. rewrite lookup_omap. done.
Qed.

Lemma none_defaults_lookup keys k d :
  none_defaults keys !! k = Some d -> d = Data JNull.
Proof.
  unfold none_defaults. intros H%elem_of_list_to_map_2.
  apply list_elem_of_fmap in H as (k' & [= _ ->] & _). done.
Qed.

(** Every default is [None] or [False]. *)
Lemma param_defaults_falsy cls k d :
  param_defaults cls !! k = Some d -> as_dict_value d = None.
Proof.
  destruct cls; simpl; try (by intros ->%none_defaults_lookup).
  intros H.
  repeat (apply lookup_insert_Some in H as [[_ <-]|[_ H]]; [done|]).
  by rewrite lookup_empty in H.
Qed.

Lemma init_attrs_lookup cls kwargs k :
  init_attrs cls kwargs !! k =
    param_defaults cls !! k ≫= fun d => Some (default d (kwargs !! k)).
Proof. unfold init_attrs. by rewrite map_lookup_imap. Qed.

(** What the copying loop gives to [AsDict]. *)
Lemma AsDict_init_attrs cls kwargs k :
  init_attrs cls kwargs !! k ≫= as_dict_value =
    param_defaults cls !! k ≫= fun _ => kwargs !! k ≫= as_dict_value.
Proof.
  rewrite init_attrs_lookup.
  destruct (param_defaults cls !! k) as [d|] eqn:Hd; [|done]. simpl.
  destruct (kwargs !! k); simpl; [done|]. by eapply param_defaults_falsy.
Qed.

Lemma set_connections_lookup_other c params attrs attrs' k :
  set_connections c params attrs = Ok attrs' ->
  k ∉ params -> attrs' !! k = attrs !! k.
Proof.
  revert attrs. induction params as [|p params IH]; intros attrs H Hk; simpl in H.
  - by injection H as <-.
  - apply not_elem_of_cons in Hk as [Hkp Hk].
    destruct (contains c p) as [[|]|]; [| |done].
    + rewrite (IH _ H Hk). by rewrite lookup_insert_ne.
    + by apply IH.
Qed.

Lemma set_connections_lookup_unset c params attrs attrs' k :
  set_connections c params attrs = Ok attrs' ->
  contains c k = Ok false -> attrs' !! k = attrs !! k.
Proof.
  revert attrs. induction params as [|p params IH]; intros attrs H Hc; simpl in H.
  - by injection H as <-.
  - destruct (contains c p) as [[|]|] eqn:Hp; [| |done].
    + rewrite (IH _ H Hc). apply lookup_insert_ne. intros ->. congruence.
    + by apply IH.
Qed.

Lemma set_connections_lookup_flag c params attrs attrs' k :
  set_connections c params attrs = Ok attrs' ->
  k ∈ params -> contains c k = Ok true ->
  attrs' !! k = Some (Data (JBool true)).
Proof.
  revert attrs. induction params as [|p params IH]; intros attrs H Hk Hc; simpl in H.
  - by apply elem_of_nil in Hk.
  - destruct (decide (k ∈ params)) as [Hin|Hnin].
    + destruct (contains c p) as [[|]|]; [| |done]; by eapply IH.
    + apply elem_of_cons in Hk as [->|?]; [|done]. rewrite Hc in H.
      rewrite (set_connections_lookup_other _ _ _ _ _ H Hnin).
      by rewrite lookup_insert_eq.
Qed.

(** ** The constructors *)

Lemma init_plain cls kwargs :
  cls <> List_ -> cls <> UserStatus ->
  init cls kwargs = Ok (Model cls (init_attrs cls kwargs)).
Proof. by destruct cls. Qed.

Lemma AsDict_of_init_attrs cls kwargs attrs k :
  attrs !! k = init_attrs cls kwargs !! k ->
  AsDict (Model cls attrs) !! k =
    param_defaults cls !! k ≫= fun _ => kwargs !! k ≫= as_dict_value.
Proof.
  intros H. rewrite AsDict_lookup.
  destruct (param_defaults cls !! k) eqn:Hd; [simpl|done].
  rewrite H, AsDict_init_attrs, Hd. done.
Qed.

(** A field that the constructor only copies reaches [AsDict] when the
    class declares it and the supplied value is true. *)
Lemma AsDict_init_copied cls kwargs m k :
  init cls kwargs = Ok m -> rebuilt cls kwargs k = false ->
  AsDict m !! k = param_defaults cls !! k ≫= fun _ => kwargs !! k ≫= as_dict_value.
Proof.
  intros Hinit Hk.
  destruct (decide (cls = List_)) as [->|Hl];
    [|destruct (decide (cls = UserStatus)) as [->|Hu]].
  - unfold init in Hinit. simpl in Hk.
    destruct (kwargs !! "user") as [data|] eqn:Hd.
    + destruct (as_kwargs data); [|done]. injection Hinit as <-.
      rewrite andb_true_r in Hk. apply bool_decide_eq_false in Hk.
      apply AsDict_of_init_attrs. by rewrite lookup_insert_ne.
    + injection Hinit as <-. by apply AsDict_of_init_attrs.
  - unfold init in Hinit. simpl in Hk.
    destruct (kwargs !! "connections") as [c|] eqn:Hc.
    + destruct (set_connections c connections _) as [attrs'|] eqn:Hs; [|done].
      injection Hinit as <-.
      rewrite andb_true_r in Hk. apply bool_decide_eq_false in Hk.
      apply AsDict_of_init_attrs.
      by apply (set_connections_lookup_other _ _ _ _ _ Hs).
    + injection Hinit as <-. by apply AsDict_of_init_attrs.
  - rewrite init_plain in Hinit by done. injection Hinit as <-.
    by apply AsDict_of_init_attrs.
Qed.



Example AsDict_user_sample :
  map_to_list (AsDict (Model User (init_attrs User (inl <$> user_sample))))
    = [("name"%string, JStr "x")].
Proof. vm_compute. reflexivity. Qed.

Example non_default_fields_user_sample :
  non_default_fields User user_sample !! "verified" = Some (JBool false)
  /\ non_default_fields User user_sample !! "friends_count" = Some (JInt 0).
Proof. split; vm_compute; reflexivity. Qed.

Example AsDict_connections_sample :
  exists m, init UserStatus (inl <$> connections_sample) = Ok m
            /\ map_to_list (AsDict m) = [("following"%string, JBool true)].
Proof. eexists. split; vm_compute; reflexivity. Qed.


(** ** Equality *)

Lemma eq_instances a b :
  eq__ a (Inst b) = Ok (Data (JBool (dict_eq (AsDict a) (AsDict b)))).
Proof. reflexivity. Qed.

(** ** Serialisation *)

#[local] Instance key_le_total {A} : Total (@key_le A).
Proof. intros x y. unfold key_le. apply String.leb_total. Qed.

Lemma canonical_members members :
  foldr (fun kv P => canonical (snd kv) /\ P) True members
  <-> Forall (fun kv : string * jdoc => canonical (snd kv)) members.
Proof.
  induction members as [|kv ms IH]; simpl.
  - split; [constructor|done].
  - rewrite Forall_cons, IH. done.
Qed.

Lemma canonical_items l :
  foldr (fun x P => canonical x /\ P) True l <-> Forall canonical l.
Proof.
  induction l as [|x l IH]; simpl.
  - split; [constructor|done].
  - rewrite Forall_cons, IH. done.
Qed.

(** The members written for a dictionary: in the order of their keys,
    one per key, with the serialised values. *)
Lemma dumps_dict_members d :
  exists members,
    dumps (JDict d) = DObject members
    /\ Sorted key_le members
    /\ NoDup members.*1
    /\ list_to_map members = dumps <$> d.
Proof.
  eexists. split; [reflexivity|].
  pose proof (merge_sort_Permutation (@key_le jdoc) (map_to_list (dumps <$> d)))
    as Hperm.
  split_and!.
  - apply (Sorted_merge_sort key_le).
  - rewrite Hperm. apply NoDup_fst_map_to_list.
  - transitivity (list_to_map (map_to_list (dumps <$> d)) : gmap string jdoc);
      [|apply list_to_map_to_list].
    apply list_to_map_proper; [|done].
    rewrite Hperm. apply NoDup_fst_map_to_list.
Qed.

Lemma dumps_canonical j : canonical (dumps j).
Proof.
  induction j as [| | | |l IH|d IH] using json_ind'; try done.
  - simpl. apply canonical_items. by apply Forall_fmap.
  - change (canonical (DObject (merge_sort key_le (map_to_list (dumps <$> d))))).
    simpl. split; [apply (Sorted_merge_sort key_le)|].
    apply canonical_members, Forall_forall. intros [k v] Hkv.
    rewrite merge_sort_Permutation in Hkv.
    apply elem_of_map_to_list in Hkv. rewrite lookup_fmap in Hkv.
    destruct (d !! k) as [x|] eqn:Hx; [|done]. injection Hkv as <-.
    simpl. by apply (IH k x).
Qed.


Example eq_media_zero_none :
  eq__ media_zero (Inst media_none) = Ok (Data (JBool true))
  /\ attrs_of media_zero !! "id" = Some (Data (JInt 0))
  /\ attrs_of media_none !! "id" = Some (Data JNull).
Proof. split_and!; vm_compute; reflexivity. Qed.


(** C10. Compared with a value that is false in a boolean context,
    None for one, an instance returns that very value and raises nothing.
    Two instances of one class whose attributes differ only where both
    are false or missing have the same AsDict and compare equal. *)
Theorem eq_falsy (self : model) :
  (forall other, truthy other = false -> eq__ self other = Ok other)
  /\ eq__ self (Data JNull) = Ok (Data JNull)
  /\ (forall cls attrs1 attrs2,
        (forall k, attrs1 !! k = attrs2 !! k
                   \/ (falsy_attr (attrs1 !! k) /\ falsy_attr (attrs2 !! k))) ->
        AsDict (Model cls attrs1) = AsDict (Model cls attrs2)
        /\ eq__ (Model cls attrs1) (Inst (Model cls attrs2))
            = Ok (Data (JBool true))).
Proof.
  split_and!.
  - intros other Hf. unfold eq__. by rewrite Hf.
  - reflexivity.
  - intros cls attrs1 attrs2 H.
    assert (Heq : AsDict (Model cls attrs1) = AsDict (Model cls attrs2)).
    { apply map_eq. intros k. rewrite !AsDict_lookup.
      destruct (param_defaults cls !! k); [simpl|done].
      destruct (H k) as [->|[H1 H2]]; [done|].
      assert (Hnone : forall o, falsy_attr o -> o ≫= as_dict_value = None).
      { intros [[j|m]|]; simpl; try done. by intros ->. }
      by rewrite !Hnone. }
    split; [done|]. rewrite eq_instances, Heq, dict_eq_refl. done.
Qed.

Lemma eq_falsy_witness :
  eq__ media_zero (Data (JInt 0)) = Ok (Data (JInt 0))
  /\ eq__ (Model Media {[ "id" := Data JNull ]})
          (Inst (Model Media {[ "id" := Data (JBool false) ]}))
     = Ok (Data (JBool true))
  /\ eq__ (Model Media {[ "id" := Data JNull ]})
          (Inst (Model Media {[ "id" := Data (JStr EmptyString) ]}))
     = Ok (Data (JBool true)).
Proof.
  destruct (eq_falsy media_zero) as (H1 & _ & H3). split_and!.
  - apply H1. reflexivity.
  - apply H3. intros k. destruct (decide (k = "id")) as [->|Hk].
    + right. rewrite !lookup_singleton_eq. done.
    + left. by rewrite !lookup_singleton_ne.
  - apply H3. intros k. destruct (decide (k = "id")) as [->|Hk].
    + right. rewrite !lookup_singleton_eq. done.
    + left. by rewrite !lookup_singleton_ne.
Defined.

End ModelsFacts.

(** * Further properties of [parse_media_file] *)
Module MediaFileMore.
Import MediaFile MediaFileSpec MediaFileFacts.

Section WithEnv.
Variable guess_type : string -> option string.
Variable realpath : string -> string.

Local Abbreviation acquire := (acquire realpath).
Local Abbreviation validate := (validate guess_type).
Local Abbreviation parse_media_file := (parse_media_file guess_type realpath).

(** *** What each branch acquires *)

Lemma acquire_stream h f w :
  heap w !! h = Some f -> fo_closed f = false -> fo_seekable f = true ->
  acquire (RefStream h) w
    = (Ok (h, fo_name f, fo_size f), set_heap (<[h := set_pos 0 f]> (heap w)) w).
Proof.
  intros Hh Hc Hsk.
  assert (Hlen : (h < length (heap w))%nat) by (by eapply lookup_lt_Some).
  unfold MediaFile.acquire, mbind, io_bind, bind, name_of, with_stream.
  rewrite Hh. simpl.
  unfold seek at 1, with_stream. rewrite Hh, Hc, Hsk. simpl.
  unfold tell, with_stream. simpl.
  rewrite list_lookup_insert_eq by done. simpl. rewrite Hc. simpl.
  unfold try_pass, seek, with_stream. simpl.
  rewrite list_lookup_insert_eq by done. simpl. rewrite Hc, Hsk. simpl.
  rewrite list_insert_insert_eq, Z.add_0_r. done.
Qed.

Lemma acquire_stream_closed h f w :
  heap w !! h = Some f -> fo_closed f = true ->
  acquire (RefStream h) w = (Raise ValueError, w).
Proof.
  intros Hh Hc.
  unfold MediaFile.acquire, mbind, io_bind, bind, name_of, with_stream.
  rewrite Hh. simpl. unfold seek, with_stream. by rewrite Hh, Hc.
Qed.

Lemma acquire_stream_unseekable h f w :
  heap w !! h = Some f -> fo_closed f = false -> fo_seekable f = false ->
  acquire (RefStream h) w = (Raise UnsupportedOperation, w).
Proof.
  intros Hh Hc Hsk.
  unfold MediaFile.acquire, mbind, io_bind, bind, name_of, with_stream.
  rewrite Hh. simpl. unfold seek, with_stream. by rewrite Hh, Hc, Hsk.
Qed.

Lemma acquire_stream_missing h w :
  heap w !! h = None -> acquire (RefStream h) w = (Raise AttributeError, w).
Proof.
  intros Hh.
  unfold MediaFile.acquire, mbind, io_bind, bind, name_of, with_stream.
  by rewrite Hh.
Qed.

Lemma acquire_url s len w :
  String.prefix "http" s = true -> remote w !! s = Some len ->
  acquire (RefStr s) w
    = (Ok (length (heap w), basename s, len),
       set_heap (heap w ++ [mkFile s len 0 false false]) w).
Proof.
  intros Hs Hr.
  unfold MediaFile.acquire, mbind, io_bind, bind. rewrite Hs.
  unfold urlopen. rewrite Hr. simpl.
  unfold length_of, with_stream. simpl.
  rewrite lookup_app_r, Nat.sub_diag by lia. simpl.
  unfold try_pass, seek, with_stream. simpl.
  rewrite lookup_app_r, Nat.sub_diag by lia. simpl. done.
Qed.

Lemma acquire_url_unreachable s w :
  String.prefix "http" s = true -> remote w !! s = None ->
  acquire (RefStr s) w = (Raise URLError, w).
Proof.
  intros Hs Hr.
  unfold MediaFile.acquire, mbind, io_bind, bind. rewrite Hs.
  unfold urlopen. by rewrite Hr.
Qed.

Lemma acquire_local s sz w :
  String.prefix "http" s = false -> files w !! realpath s = Some sz ->
  acquire (RefStr s) w
    = (Ok (length (heap w), basename s, sz),
       set_heap (heap w ++ [mkFile (realpath s) sz sz true true]) w).
Proof.
  intros Hs Hf.
  unfold MediaFile.acquire, mbind, io_bind, bind. rewrite Hs.
  unfold with_open, py_open. rewrite Hf.
  unfold seek at 1, with_stream. simpl.
  rewrite lookup_app_r, Nat.sub_diag by lia. simpl.
  unfold tell, with_stream. simpl.
  rewrite list_lookup_insert_eq by (rewrite length_app; simpl; lia). simpl.
  unfold close, with_stream. simpl.
  rewrite list_lookup_insert_eq by (rewrite length_app; simpl; lia). simpl.
  unfold try_pass, seek, with_stream. simpl.
  rewrite list_lookup_insert_eq
    by (rewrite length_insert, length_app; simpl; lia). simpl.
  rewrite list_insert_insert_eq, Z.add_0_r.
  rewrite (insert_app_r_alt _ _ (length (heap w))) by lia.
  rewrite Nat.sub_diag. simpl. done.
Qed.

Lemma acquire_local_missing s w :
  String.prefix "http" s = false -> files w !! realpath s = None ->
  acquire (RefStr s) w = (Raise OSError, w).
Proof.
  intros Hs Hf.
  unfold MediaFile.acquire, mbind, io_bind, bind. rewrite Hs.
  unfold with_open, py_open. by rewrite Hf.
Qed.

(** *** The three kinds of reference *)



(** A local path to an existing file: the size is the length of the
    file, the name is what follows the last slash of the path as given,
    and whether the validation returns or raises, the one stream that
    the call opened is closed afterwards; the streams that existed
    before are as they were. *)
Theorem parse_media_file_local_path (s : string) (sz : Z) (w : world) :
  String.prefix "http" s = false -> files w !! realpath s = Some sz ->
  exists w',
    parse_media_file (RefStr s) w
      = (validate (length (heap w), basename s, sz), w')
    /\ heap w' = heap w ++ [mkFile (realpath s) sz sz true true]
    /\ nothing_left_open w w'
    /\ files w' = files w /\ remote w' = remote w.
Proof.
  intros Hs Hf. eexists. split_and!.
  - rewrite parse_media_file_unfold, (acquire_local s sz w Hs Hf). reflexivity.
  - done.
  - intros i f Hi Hl. simpl in Hl.
    rewrite lookup_app_r in Hl by done.
    destruct (i - length (heap w))%nat as [|n]; simpl in Hl; [|done].
    by injection Hl as <-.
  - done.
  - done.
Qed.


(** Whatever the reference and the outcome, the call leaves the files
    and the servers as they are, removes no stream, creates at most one,
    and changes of the existing streams at most the offset of the one
    that was passed. *)
Theorem parse_media_file_frame (passed_media : media_ref) (w : world) :
  let w' := snd (parse_media_file passed_media w) in
  files w' = files w /\ remote w' = remote w
  /\ (length (heap w) <= length (heap w') <= S (length (heap w)))%nat
  /\ forall i f, heap w !! i = Some f ->
        exists f', heap w' !! i = Some f' /\ same_stream f f'
                   /\ (passed_media <> RefStream i -> f' = f).
Proof.
  assert (Hsame : forall (v : world) (e : result descriptor),
    (files v = files w /\ remote v = remote w
     /\ (length (heap w) <= length (heap v) <= S (length (heap w)))%nat
     /\ forall i f, heap w !! i = Some f ->
           exists f', heap v !! i = Some f' /\ same_stream f f'
                      /\ (passed_media <> RefStream i -> f' = f)) ->
    forall p, p = (e, v) ->
    let w' := snd p in
    files w' = files w /\ remote w' = remote w
    /\ (length (heap w) <= length (heap w') <= S (length (heap w)))%nat
    /\ forall i f, heap w !! i = Some f ->
          exists f', heap w' !! i = Some f' /\ same_stream f f'
                     /\ (passed_media <> RefStream i -> f' = f)).
  { intros v e H p ->. done. }
  assert (Hid : files w = files w /\ remote w = remote w
     /\ (length (heap w) <= length (heap w) <= S (length (heap w)))%nat
     /\ forall i f, heap w !! i = Some f ->
           exists f', heap w !! i = Some f' /\ same_stream f f'
                      /\ (passed_media <> RefStream i -> f' = f)).
  { split_and!; [done|done|lia|lia|]. intros i f Hi. by exists f. }
  assert (Happ : forall g,
     files (set_heap (heap w ++ [g]) w) = files w
     /\ remote (set_heap (heap w ++ [g]) w) = remote w
     /\ (length (heap w) <= length (heap (set_heap (heap w ++ [g]) w))
         <= S (length (heap w)))%nat
     /\ forall i f, heap w !! i = Some f ->
           exists f', heap (set_heap (heap w ++ [g]) w) !! i = Some f'
                      /\ same_stream f f'
                      /\ (passed_media <> RefStream i -> f' = f)).
  { intros g. simpl. rewrite length_app. simpl.
    split_and!; [done|done|lia|lia|]. intros i f Hi. exists f.
    split; [|done]. rewrite lookup_app_l; [done|by eapply lookup_lt_Some]. }
  destruct passed_media as [s|h].
  - destruct (String.prefix "http" s) eqn:Hs.
    + destruct (remote w !! s) as [len|] eqn:Hr.
      * eapply Hsame; [apply (Happ (mkFile s len 0 false false))|].
        rewrite parse_media_file_unfold, (acquire_url s len w Hs Hr). reflexivity.
      * eapply Hsame; [exact Hid|].
        rewrite parse_media_file_unfold. by rewrite acquire_url_unreachable.
    + destruct (files w !! realpath s) as [sz|] eqn:Hf.
      * eapply Hsame; [apply (Happ (mkFile (realpath s) sz sz true true))|].
        rewrite parse_media_file_unfold, (acquire_local s sz w Hs Hf). reflexivity.
      * eapply Hsame; [exact Hid|].
        rewrite parse_media_file_unfold. by rewrite acquire_local_missing.
  - destruct (heap w !! h) as [f|] eqn:Hh.
    + destruct (fo_closed f) eqn:Hc.
      * eapply Hsame; [exact Hid|].
        rewrite parse_media_file_unfold. by erewrite acquire_stream_closed.
      * destruct (fo_seekable f) eqn:Hsk.
        -- eapply Hsame;
             [|rewrite parse_media_file_unfold, (acquire_stream h f w Hh Hc Hsk); reflexivity].
           simpl. rewrite length_insert. split_and!; [done|done|lia|lia|].
           intros i g Hi. destruct (decide (i = h)) as [->|Hne].
           ++ exists (set_pos 0 f). rewrite Hh in Hi. injection Hi as <-.
              split; [apply list_lookup_insert_eq; by eapply lookup_lt_Some|].
              split; [done|]. intros Hn. by destruct Hn.
           ++ exists g. rewrite list_lookup_insert_ne by done. done.
        -- eapply Hsame; [exact Hid|].
           rewrite parse_media_file_unfold. by erewrite acquire_stream_unseekable.
    + eapply Hsame; [exact Hid|].
      rewrite parse_media_file_unfold. by rewrite acquire_stream_missing.
Qed.

End WithEnv.




Lemma parse_media_file_local_path_witness :
  exists w',
    MediaFile.parse_media_file sample_guess_type photo_realpath (RefStr "photo.jpg") photo_world
      = (Ok (mkDescriptor 0 "photo.jpg" (4 * 1048576) (Some "image/jpeg")), w')
    /\ nothing_left_open photo_world w'.
Proof.
  destruct (parse_media_file_local_path sample_guess_type photo_realpath
              "photo.jpg" (4 * 1048576) photo_world eq_refl eq_refl)
    as (w' & H & _ & Hn & _).
  exists w'. split; [|done]. rewrite H. reflexivity.
Defined.

(** *** [os.path.basename] *)

Lemma has_slash_app p q : has_slash (p +:+ q) = has_slash p || has_slash q.
Proof.
  induction p as [|c p IH]; [done|].
  change (String c p +:+ q) with (String c (p +:+ q)). simpl.
  by rewrite IH, orb_assoc.
Qed.

Lemma basename_id p : has_slash p = false -> basename p = p.
Proof. destruct p as [|c p]; simpl; [done|]. by intros ->. Qed.

(** The file name that [parse_media_file] derives holds no slash and is
    the end of the path; a path without a slash is its own name; and the
    name of a directory joined to a file name by a slash is that file
    name. *)
Theorem basename_spec (p : string) :
  has_slash (basename p) = false
  /\ (exists dir, p = dir +:+ basename p)
  /\ (has_slash p = false -> basename p = p)
  /\ (forall dir, has_slash p = false -> basename (dir +:+ String "/" p) = p).
Proof.
  split_and!.
  - induction p as [|c p IH]; simpl; [done|].
    destruct (Ascii.eqb c "/" || has_slash p) eqn:Hc; [done|]. simpl. exact Hc.
  - induction p as [|c p IH]; simpl; [by exists EmptyString|].
    destruct (Ascii.eqb c "/" || has_slash p).
    + destruct IH as [dir Hd]. exists (String c dir).
      change (String c p = String c (dir +:+ basename p)). by f_equal.
    + by exists EmptyString.
  - apply basename_id.
  - intros dir Hp. induction dir as [|c dir IH].
    + change (basename (String "/" p) = p). simpl. by apply basename_id.
    + change (basename (String c (dir +:+ String "/" p)) = p). simpl.
      rewrite has_slash_app. simpl. by rewrite !orb_true_r.
Qed.

Lemma basename_spec_witness :
  basename "/tmp/photo.jpg" = "photo.jpg"%string
  /\ basename "photo.jpg" = "photo.jpg"%string.
Proof.
  destruct (basename_spec "photo.jpg") as (_ & _ & Hid & Hdir). split.
  - apply (Hdir "/tmp"%string). reflexivity.
  - apply Hid. reflexivity.
Defined.


End MediaFileMore.

(** * Further properties of the estimator and of [is_url] *)
Module TwitterUtilsMore.
Import Sre SreSpec SreFacts TwitterUtils TwitterUtilsSpec TwitterUtilsFacts.

Lemma URL_REGEXP_min_len : min_len URL_REGEXP = 3%nat.
Proof. vm_compute. reflexivity. Qed.

Lemma URL_REGEXP_needs_dot : needs_dot URL_REGEXP = true.
Proof. vm_compute. reflexivity. Qed.

Ltac crush_N :=
  repeat match goal with
  | H : context [(?a <=? ?b)%N] |- _ => destruct (N.leb_spec a b)
  | H : context [(?a <? ?b)%N] |- _ => destruct (N.ltb_spec a b)
  | H : context [(?a =? ?b)%N] |- _ => destruct (N.eqb_spec a b)
  | |- context [(?a <=? ?b)%N] => destruct (N.leb_spec a b)
  | |- context [(?a <? ?b)%N] => destruct (N.ltb_spec a b)
  | |- context [(?a =? ?b)%N] => destruct (N.eqb_spec a b)
  end; simpl in *; try done; try lia.

Section WithTables.
Variable uni_word : N -> bool.
Variable uni_fold : N -> N.

Local Abbreviation rmatch := (rmatch uni_word uni_fold).
Local Abbreviation match_at := (match_at uni_word uni_fold).
Local Abbreviation scan := (scan uni_word uni_fold).
Local Abbreviation findall := (findall uni_word uni_fold).
Local Abbreviation scanned := (scanned uni_word uni_fold).
Local Abbreviation derives := (derives uni_word uni_fold).
Local Abbreviation occurs := (occurs uni_word uni_fold).
Local Abbreviation is_word := (is_word uni_word).
Local Abbreviation fold := (fold uni_fold).
Local Abbreviation lit_match := (lit_match uni_fold).
Local Abbreviation item_match := (item_match uni_word uni_fold).
Local Abbreviation in_class := (in_class uni_word uni_fold).
Local Abbreviation calc_expected_status_length :=
  (calc_expected_status_length uni_word uni_fold).
Local Abbreviation is_url := (is_url uni_word uni_fold).

(** *** How long a match is *)

Lemma derives_min_len r pw s pw' s' :
  derives r pw s pw' s' -> (length s' + min_len r <= length s)%nat.
Proof.
  induction 1; simpl in *; lia.
Qed.

Lemma scanned_min_len r pw ms s :
  scanned r pw ms s -> Forall (fun m => (min_len r <= length m)%nat) ms.
Proof.
  induction 1 as [| |pw m ms s _ Hm _ IH]; [constructor|done|].
  constructor; [|done].
  apply rmatch_sound in Hm as (pw' & s' & Hd & [= ->]).
  apply derives_min_len in Hd. rewrite length_app in Hd. lia.
Qed.

Lemma total_length_ge n ms :
  Forall (fun m : pystr => (n <= length m)%nat) ms ->
  (n * length ms <= total_length ms)%nat.
Proof. induction 1; simpl; lia. Qed.

(** What [findall] reports for the pattern, with the counts that the
    estimate is made of. *)
Lemma findall_counts status :
  exists ms, findall URL_REGEXP status = Some ms
    /\ Forall (fun m => (3 <= length m)%nat) ms
    /\ (3 * length ms <= total_length ms)%nat
    /\ (total_length ms <= length status)%nat
    /\ (ms <> [] <-> occurs URL_REGEXP false status).
Proof.
  destruct (findall_URL_REGEXP uni_word uni_fold status) as (ms & Hms & Hsc & Hne).
  exists ms. pose proof (scanned_min_len _ _ _ _ Hsc) as Hmin.
  rewrite URL_REGEXP_min_len in Hmin.
  split_and!; [done|done|by apply total_length_ge|by eapply scanned_length|done].
Qed.

Lemma calc_of_findall status short ms :
  findall URL_REGEXP status = Some ms ->
  calc_expected_status_length status short =
    Some (Z.of_nat (length status) - Z.of_nat (total_length ms)
          + short * Z.of_nat (length ms))%Z.
Proof.
  intros Hms. unfold TwitterUtils.calc_expected_status_length. rewrite Hms.
  simpl. f_equal. rewrite length_concat_total.
  destruct ms; [simpl; lia|done].
Qed.

(** Every string that [findall] reports for the pattern has at least
    three characters, so a status has at most a third as many matches as
    characters. *)
Theorem findall_match_lengths (status : pystr) :
  exists ms, findall URL_REGEXP status = Some ms
    /\ Forall (fun m => (3 <= length m)%nat) ms
    /\ (3 * length ms <= length status)%nat.
Proof.
  destruct (findall_counts status) as (ms & Hms & Hall & H3 & Hle & _).
  exists ms. split_and!; [done|done|lia].
Qed.


(** The estimate is the estimate for short_url_length 0 plus
    short_url_length for every match, and there is a match exactly when
    is_url says so: the estimate depends on short_url_length if and only
    if is_url is True. *)
Theorem calc_expected_status_length_affine (status : pystr) :
  exists base count,
    (forall short_url_length,
       calc_expected_status_length status short_url_length
         = Some (base + short_url_length * count)%Z)
    /\ (0 <= base <= Z.of_nat (length status))%Z
    /\ is_url status = Some (0 <? count)%Z.
Proof.
  destruct (findall_counts status) as (ms & Hms & Hall & H3 & Hle & _).
  exists (Z.of_nat (length status) - Z.of_nat (total_length ms))%Z,
         (Z.of_nat (length ms)).
  split_and!; [intros; by apply calc_of_findall|lia|lia|].
  unfold TwitterUtils.is_url. rewrite Hms. simpl. by destruct ms.
Qed.

(** *** Text without a dot *)

Lemma lit_match_dot c : (c < 128)%N -> lit_match 46 c = true -> c = 46%N.
Proof.
  intros Hc. unfold Sre.lit_match, ascii_lower, in_range.
  intros H. crush_N.
Qed.

Lemma derives_dot r pw s pw' s' :
  derives r pw s pw' s' -> needs_dot r = true ->
  exists u c v, s = u ++ c :: v ++ s' /\ lit_match 46 c = true.
Proof.
  induction 1 as [| | |items c pw s Hin| |r1 r2 pw s pw1 s1 pw2 s2 H1 IH1 H2 IH2
                 |r1 r2 pw s pw' s' H1 IH1|r1 r2 pw s pw' s' H1 IH1| |];
    simpl; intros Hn; try discriminate.
  - destruct items as [|[| p |] [|]]; try discriminate.
    apply N.eqb_eq in Hn as ->. exists [], c, []. split; [done|].
    simpl in Hin. by rewrite orb_false_r in Hin.
  - apply orb_true_iff in Hn as [Hn|Hn].
    + destruct (IH1 Hn) as (u & c & v & -> & Hc).
      destruct (derives_prefix _ _ _ _ _ _ _ H2) as (m & -> & _).
      exists u, c, (v ++ m). by rewrite <- !app_assoc.
    + destruct (IH2 Hn) as (u & c & v & -> & Hc).
      destruct (derives_prefix _ _ _ _ _ _ _ H1) as (m & -> & _).
      exists (m ++ u), c, v. by rewrite <- !app_assoc.
  - apply andb_true_iff in Hn as [Hn _]. auto.
  - apply andb_true_iff in Hn as [_ Hn]. auto.
Qed.

(** A status of ASCII characters without a dot holds no match of the
    pattern: is_url is False and the estimate is the length of the
    status, whatever short_url_length is. *)
Theorem dotless_status_has_no_url (status : pystr) :
  ascii_dotless status ->
  is_url status = Some false
  /\ forall short_url_length,
       calc_expected_status_length status short_url_length
         = Some (Z.of_nat (length status)).
Proof.
  intros Hs.
  destruct (findall_counts status) as (ms & Hms & _ & _ & _ & Hocc).
  assert (ms = []) as ->.
  { destruct ms as [|m ms]; [done|]. exfalso.
    destruct Hocc as [Hocc _].
    destruct (Hocc ltac:(done)) as (pre & suf & pw' & rest & -> & Hd).
    apply derives_dot in Hd as (u & c & v & -> & Hc); [|apply URL_REGEXP_needs_dot].
    unfold ascii_dotless in Hs. rewrite !Forall_app, Forall_cons in Hs.
    destruct Hs as (_ & _ & (Hlt & Hne) & _).
    by apply Hne, lit_match_dot. }
  split.
  - unfold TwitterUtils.is_url. by rewrite Hms.
  - intros short. rewrite (calc_of_findall _ _ [] Hms). f_equal. simpl. lia.
Qed.

(** *** The case of ASCII letters *)

Lemma same_letter_fold c d : same_letter c d -> fold d = fold c.
Proof.
  intros [->|(Hc & Hd & He)]; [done|]. unfold Sre.fold.
  apply N.ltb_lt in Hc, Hd. by rewrite Hc, Hd.
Qed.

Lemma in_range_bounds lo hi c :
  in_range lo hi c = true <-> (lo <= c)%N /\ (c <= hi)%N.
Proof. unfold in_range. by rewrite andb_true_iff, !N.leb_le. Qed.

Lemma same_letter_cases c d :
  same_letter c d ->
  d = c \/ (in_range 65 90 c = true /\ d = (c + 32)%N)
  \/ (in_range 65 90 d = true /\ c = (d + 32)%N).
Proof.
  intros [->|(_ & _ & He)]; [by left|]. unfold ascii_lower in He.
  destruct (in_range 65 90 c) eqn:Hc, (in_range 65 90 d) eqn:Hd.
  - left. lia.
  - right. left. split; [done|lia].
  - right. right. split; [done|lia].
  - by left.
Qed.

Lemma upper_is_word c :
  in_range 65 90 c = true -> is_word c = true /\ is_word (c + 32) = true.
Proof.
  intros Hc. pose proof (proj1 (in_range_bounds _ _ _) Hc) as [? ?].
  unfold Sre.is_word, ascii_word.
  rewrite !(proj2 (N.ltb_lt _ _)) by lia. rewrite Hc.
  assert (in_range 97 122 (c + 32) = true) as -> by (apply in_range_bounds; lia).
  split; [by rewrite orb_true_r|done].
Qed.

Lemma same_letter_is_word c d : same_letter c d -> is_word d = is_word c.
Proof.
  intros [->|[[Hc ->]|[Hd ->]]]%same_letter_cases; [done| |].
  - destruct (upper_is_word c Hc). congruence.
  - destruct (upper_is_word d Hd). congruence.
Qed.

Lemma same_letter_newline c d : same_letter c d -> (d =? 10)%N = (c =? 10)%N.
Proof.
  intros [->|[[Hc ->]|[Hd ->]]]%same_letter_cases; [done| |].
  - apply in_range_bounds in Hc. rewrite !(proj2 (N.eqb_neq _ _)) by lia. done.
  - apply in_range_bounds in Hd. rewrite !(proj2 (N.eqb_neq _ _)) by lia. done.
Qed.

Lemma same_letter_lit p c d : same_letter c d -> lit_match p d = lit_match p c.
Proof.
  intros [->|(Hc & Hd & He)]; [done|]. unfold Sre.lit_match.
  apply N.ltb_lt in Hc, Hd. by rewrite Hc, Hd, He.
Qed.

Lemma same_letter_item it c d : same_letter c d -> item_match it d = item_match it c.
Proof.
  intros H. destruct it; simpl.
  - by rewrite (same_letter_fold _ _ H).
  - by apply same_letter_lit.
  - by rewrite (same_letter_fold _ _ H).
Qed.

Lemma same_letter_class items c d :
  same_letter c d -> in_class items d = in_class items c.
Proof.
  intros H. unfold Sre.in_class. induction items as [|it items IH]; [done|].
  simpl. by rewrite IH, (same_letter_item _ _ _ H).
Qed.

Lemma same_text_length s t : same_text s t -> length t = length s.
Proof. intros H. symmetry. by eapply Forall2_length. Qed.

Lemma same_text_next s t : same_text s t -> next_is_word uni_word t = next_is_word uni_word s.
Proof. destruct 1; [done|]. simpl. by apply same_letter_is_word. Qed.

Lemma star_loop_same body body' k k' :
  (forall pw s t ka kb, same_text s t -> same_cont ka kb ->
     same_outcome (body pw s ka) (body' pw t kb)) ->
  same_cont k k' ->
  forall n pw s t, same_text s t ->
    same_outcome (star_loop body k n pw s) (star_loop body' k' n pw t).
Proof.
  intros Hbody Hk n. induction n as [|n IH]; intros pw s t Hst; [constructor|].
  simpl.
  match goal with
  | |- same_outcome (match ?a with _ => _ end) (match ?b with _ => _ end) =>
      assert (same_outcome a b) as Ho
  end.
  { apply Hbody; [done|]. intros pw' s' t' Hst'.
    rewrite (same_text_length _ _ Hst), (same_text_length _ _ Hst').
    destruct (length s' <? length s)%nat; [by apply IH|constructor]. }
  destruct Ho; [by constructor|by apply Hk|constructor].
Qed.

Lemma rmatch_same r : forall pw s t k k',
  same_text s t -> same_cont k k' ->
  same_outcome (rmatch r pw s k) (rmatch r pw t k').
Proof.
  induction r as [|p| |items| |r1 IH1 r2 IH2|r1 IH1 r2 IH2|r IH];
    intros pw s t k k' Hst Hk; cbn [Sre.rmatch].
  - by apply Hk.
  - destruct Hst as [|c d s t Hcd Hst]; [constructor|].
    rewrite (same_letter_lit _ _ _ Hcd), (same_letter_is_word _ _ Hcd).
    destruct (lit_match p c); [by apply Hk|constructor].
  - destruct Hst as [|c d s t Hcd Hst]; [constructor|].
    rewrite (same_letter_newline _ _ Hcd), (same_letter_is_word _ _ Hcd).
    destruct (c =? 10)%N; [constructor|by apply Hk].
  - destruct Hst as [|c d s t Hcd Hst]; [constructor|].
    rewrite (same_letter_class _ _ _ Hcd), (same_letter_is_word _ _ Hcd).
    destruct (in_class items c); [by apply Hk|constructor].
  - rewrite (same_text_next _ _ Hst).
    destruct (xorb pw (next_is_word uni_word s)); [by apply Hk|constructor].
  - apply IH1; [done|]. intros pw' s' t' Hst'. by apply IH2.
  - destruct (IH1 pw s t k k' Hst Hk); [by constructor|by apply IH2|constructor].
  - rewrite (same_text_length _ _ Hst). apply star_loop_same; [|done|done].
    intros pw' s' t' ka kb Hst' Hkab. by apply IH.
Qed.

Lemma scan_same r s : forall t pw skip,
  same_text s t ->
  option_Forall2 (Forall2 same_text) (scan r pw s skip) (scan r pw t skip).
Proof.
  induction s as [|c s IH]; intros t pw skip Hst; inversion Hst as [|? d ? t' Hcd Hst']; subst.
  - destruct skip; simpl; [|repeat constructor].
    assert (same_outcome (match_at r pw []) (match_at r pw [])) as Ho
      by (apply rmatch_same; [done|intros ???; by constructor]).
    destruct Ho; simpl; repeat constructor.
  - assert (forall n, option_Forall2 (Forall2 same_text)
              (scan r (is_word c) s n) (scan r (is_word d) t' n)) as Hnext.
    { intros n. rewrite (same_letter_is_word _ _ Hcd). by apply IH. }
    destruct skip; simpl; [|apply Hnext].
    assert (same_outcome (match_at r pw (c :: s)) (match_at r pw (d :: t'))) as Ho
      by (apply rmatch_same; [done|intros ???; by constructor]).
    destruct Ho as [e e' He| |]; [|apply Hnext|constructor].
    rewrite (same_text_length _ _ Hst'), (same_text_length _ _ He).
    destruct (Hnext (pred (S (length s) - length e))); simpl; constructor.
    constructor; [|done]. by apply Forall2_take.
Qed.

Lemma same_text_total ms ms' :
  Forall2 same_text ms ms' -> total_length ms' = total_length ms.
Proof.
  induction 1 as [|m m' ms ms' Hm _ IH]; [done|]. simpl.
  by rewrite IH, (same_text_length _ _ Hm).
Qed.

Lemma estimator_same s t :
  same_text s t ->
  is_url t = is_url s
  /\ forall short, calc_expected_status_length t short
                   = calc_expected_status_length s short.
Proof.
  intros Hst.
  destruct (findall_URL_REGEXP uni_word uni_fold s) as (ms & Hms & _).
  pose proof (scan_same URL_REGEXP s t false 0%nat Hst) as Hsc.
  fold (findall URL_REGEXP s) in Hsc. fold (findall URL_REGEXP t) in Hsc.
  rewrite Hms in Hsc. inversion Hsc as [ms0 ms' Hmm Hms0 Hms'|]; subst. symmetry in Hms'.
  split.
  - unfold TwitterUtils.is_url. rewrite Hms, Hms'. simpl. by destruct Hmm.
  - intros short.
    rewrite (calc_of_findall _ _ _ Hms), (calc_of_findall _ _ _ Hms').
    by rewrite (same_text_total _ _ Hmm), (same_text_length _ _ Hst),
      <- (Forall2_length _ _ _ Hmm).
Qed.

Lemma same_text_upper s : same_text s (map ascii_upper s).
Proof.
  induction s as [|c s IH]; constructor; [|done].
  unfold same_letter, ascii_upper, ascii_lower, in_range. crush_N.
Qed.

Lemma same_text_lower s : same_text s (map ascii_lower s).
Proof.
  induction s as [|c s IH]; constructor; [|done].
  unfold same_letter, ascii_lower, in_range. crush_N.
Qed.

(** The estimate and is_url do not depend on the case of the ASCII
    letters of the status. *)
Theorem estimator_ignores_ascii_case (status : pystr) (short_url_length : Z) :
  calc_expected_status_length (map ascii_upper status) short_url_length
    = calc_expected_status_length status short_url_length
  /\ calc_expected_status_length (map ascii_lower status) short_url_length
    = calc_expected_status_length status short_url_length
  /\ is_url (map ascii_upper status) = is_url status
  /\ is_url (map ascii_lower status) = is_url status.
Proof.
  destruct (estimator_same _ _ (same_text_upper status)) as [Hu Hcu].
  destruct (estimator_same _ _ (same_text_lower status)) as [Hl Hcl].
  by rewrite Hcu, Hcl.
Qed.

End WithTables.

Lemma dotless_status_has_no_url_witness :
  TwitterUtils.is_url (fun _ => false) (fun c => c) (utf8 "plain text, no links")
    = Some false
  /\ forall short_url_length,
       TwitterUtils.calc_expected_status_length (fun _ => false) (fun c => c)
         (utf8 "plain text, no links") short_url_length = Some 20%Z.
Proof.
  apply (dotless_status_has_no_url (fun _ => false) (fun c => c)
           (utf8 "plain text, no links")).
  unfold ascii_dotless.
  let s := eval vm_compute in (utf8 "plain text, no links") in
  change (Forall (fun c => (c < 128)%N /\ c <> 46%N) s).
  repeat (constructor; [split; [reflexivity|discriminate]|]). constructor.
Defined.

End TwitterUtilsMore.

(** * Further properties of the models *)
Module ModelsMore.
Import Models ModelsSpec ModelsFacts ModelsMethods ModelsNotions.

Lemma eq_true_of_dicts a b :
  eq__ a (Inst b) = Ok (Data (JBool true)) <-> norm <$> AsDict a = norm <$> AsDict b.
Proof.
  rewrite eq_instances, <- dict_eq_norm. split; [by intros [= ->]|by intros ->].
Qed.

(** [==] between instances is an equivalence relation: every instance is
    equal to itself, the result does not depend on the side an instance
    is written on, and two instances equal to a third are equal. *)
Theorem eq_equivalence :
  (forall a, eq__ a (Inst a) = Ok (Data (JBool true)))
  /\ (forall a b, eq__ a (Inst b) = eq__ b (Inst a))
  /\ (forall a b c,
        eq__ a (Inst b) = Ok (Data (JBool true)) ->
        eq__ b (Inst c) = Ok (Data (JBool true)) ->
        eq__ a (Inst c) = Ok (Data (JBool true))).
Proof.
  split_and!.
  - intros a. by apply eq_true_of_dicts.
  - intros a b. rewrite !eq_instances. do 3 f_equal.
    apply eq_true_iff_eq. rewrite !dict_eq_norm. split; by intros ->.
  - intros a b c. rewrite !eq_true_of_dicts. by intros -> ->.
Qed.

Lemma eq_equivalence_witness :
  eq__ media_zero (Inst (Model Media ∅)) = Ok (Data (JBool true)).
Proof.
  destruct eq_equivalence as (_ & _ & Htrans).
  apply (Htrans media_zero media_none (Model Media ∅)); reflexivity.
Defined.

Lemma init_empty cls : init cls ∅ = Ok (Model cls (init_attrs cls ∅)).
Proof. by destruct cls. Qed.

Lemma AsDict_init_empty cls : AsDict (Model cls (init_attrs cls ∅)) = ∅.
Proof.
  apply map_eq. intros k. rewrite lookup_empty.
  rewrite (AsDict_of_init_attrs cls ∅ _ k eq_refl).
  destruct (param_defaults cls !! k); simpl; [|done]. by rewrite lookup_empty.
Qed.

(** An instance constructed without arguments converts to the empty
    dictionary, so two such instances are equal whatever their classes
    are: [==] never compares the classes. *)
Theorem default_instances_equal (cls1 cls2 : model_class) (m1 m2 : model) :
  init cls1 ∅ = Ok m1 -> init cls2 ∅ = Ok m2 ->
  AsDict m1 = ∅ /\ eq__ m1 (Inst m2) = Ok (Data (JBool true)).
Proof.
  rewrite !init_empty. intros [= <-] [= <-].
  rewrite eq_instances, !AsDict_init_empty. split; [done|].
  by rewrite dict_eq_refl.
Qed.

Lemma default_instances_equal_witness :
  AsDict (Model Hashtag (init_attrs Hashtag ∅)) = ∅
  /\ eq__ (Model Hashtag (init_attrs Hashtag ∅))
          (Inst (Model User (init_attrs User ∅))) = Ok (Data (JBool true)).
Proof.
  apply (default_instances_equal Hashtag User); reflexivity.
Defined.

Lemma dumps_inj a : forall b, dumps a = dumps b -> a = b.
Proof.
  induction a as [|x|x|x|l IH|d IH] using json_ind'; intros [|y|y|y|l'|d'] H;
    simpl in H; try discriminate; try done; try by injection H as ->.
  - f_equal. injection H as H. revert l' H.
    induction IH as [|a l Ha _ IHl]; intros [|b l'] H; simplify_eq/=; [done|].
    f_equal; [by apply Ha|by apply IHl].
  - f_equal.
    destruct (dumps_dict_members d) as (ms & Hd & _ & _ & Hm).
    destruct (dumps_dict_members d') as (ms' & Hd' & _ & _ & Hm').
    change (dumps (JDict d) = dumps (JDict d')) in H.
    assert (ms = ms') as <- by congruence.
    apply map_eq. intros k.
    assert ((dumps <$> d) !! k = (dumps <$> d') !! k) as Hk by congruence.
    rewrite !lookup_fmap in Hk.
    destruct (d !! k) as [x|] eqn:Hx, (d' !! k) as [y|] eqn:Hy; simplify_eq/=; [|done].
    f_equal. by apply (IH k x Hx).
Qed.



(** Every entry of AsDict is a declared field of the class, and its
    value is either the attribute itself, which is then true in a
    boolean context, or the AsDict of the instance that the attribute
    holds. *)
Theorem AsDict_values (m : model) (k : string) (v : json) :
  AsDict m !! k = Some v ->
  is_Some (param_defaults (class_of m) !! k)
  /\ ((attrs_of m !! k = Some (Data v) /\ truthy_json v = true)
      \/ exists m', attrs_of m !! k = Some (Inst m') /\ v = JDict (AsDict m')).
Proof.
  destruct m as [cls attrs]. rewrite AsDict_lookup. simpl.
  destruct (param_defaults cls !! k) as [d|]; [|done]. simpl.
  destruct (attrs !! k) as [[j|m']|]; simpl; [| |done].
  - destruct (truthy_json j) eqn:Hj; [|done]. intros [= ->]. eauto.
  - intros [= <-]. eauto.
Qed.

Lemma AsDict_values_witness :
  is_Some (param_defaults User !! "name")
  /\ ((init_attrs User (inl <$> user_sample) !! "name" = Some (Data (JStr "x"))
       /\ truthy_json (JStr "x") = true)
      \/ exists m', init_attrs User (inl <$> user_sample) !! "name" = Some (Inst m')
                    /\ JStr "x" = JDict (AsDict m')).
Proof.
  apply (AsDict_values (Model User (init_attrs User (inl <$> user_sample)))
           "name" (JStr "x")).
  reflexivity.
Defined.

Lemma dom_init_attrs cls kwargs : dom (init_attrs cls kwargs) = dom (param_defaults cls).
Proof.
  apply set_eq. intros k. rewrite !elem_of_dom, init_attrs_lookup.
  destruct (param_defaults cls !! k); simpl; split; intros [? ?]; by eauto.
Qed.

Lemma as_kwargs_mapping u :
  (is_mapping u = true -> exists d, u = Data (JDict d) /\ as_kwargs u = Ok (inl <$> d))
  /\ (is_mapping u = false -> as_kwargs u = Raise TypeError).
Proof. destruct u as [[]|]; simpl; split; intros; try done; eauto. Qed.

Lemma contains_container c p :
  (is_container c = true -> exists b, contains c p = Ok b)
  /\ (is_container c = false -> contains c p = Raise TypeError).
Proof. destruct c as [[]|]; simpl; split; intros; try done; eauto. Qed.

Lemma set_connections_container c params attrs :
  is_container c = true ->
  (forall p, p ∈ params -> p ∈ dom attrs) ->
  exists attrs', set_connections c params attrs = Ok attrs' /\ dom attrs' = dom attrs.
Proof.
  intros Hc. revert attrs. induction params as [|p params IH]; intros attrs Hin.
  - by exists attrs.
  - simpl. destruct (proj1 (contains_container c p) Hc) as [[] ->].
    + destruct (IH (<[p := Data (JBool true)]> attrs)) as (attrs' & -> & Hd).
      { intros q Hq. rewrite dom_insert_L. apply elem_of_union_r, Hin. by right. }
      exists attrs'. split; [done|]. rewrite Hd, dom_insert_L.
      apply subseteq_union_1_L, singleton_subseteq_l, Hin. by left.
    + apply IH. intros q Hq. apply Hin. by right.
Qed.

Lemma connections_declared p kwargs :
  p ∈ connections -> p ∈ dom (init_attrs UserStatus kwargs).
Proof.
  rewrite dom_init_attrs. intros Hp. apply elem_of_dom.
  unfold connections in Hp. set_unfold.
  destruct Hp as [->|[->|[->|[->|[->|[->|[]]]]]]]; by eexists.
Qed.


Lemma init_attrs_agree cls kwargs kwargs' :
  (forall k, is_Some (param_defaults cls !! k) -> kwargs !! k = kwargs' !! k) ->
  init_attrs cls kwargs = init_attrs cls kwargs'.
Proof.
  intros H. apply map_eq. intros k. rewrite !init_attrs_lookup.
  destruct (param_defaults cls !! k) eqn:Hk; simpl; [|done].
  by rewrite (H k).
Qed.



Lemma AsDict_declared cls attrs k v :
  AsDict (Model cls attrs) !! k = Some v -> is_Some (param_defaults cls !! k).
Proof.
  rewrite AsDict_lookup. by destruct (param_defaults cls !! k).
Qed.

(** Constructing an instance of the same class from the AsDict of an
    instance gives an equal instance with the same AsDict, provided
    every value of that AsDict is true in a boolean context (no nested
    instance that converts to the empty dictionary) and, for List, the
    AsDict has no [user]. *)
Theorem AsDict_round_trip (m : model) :
  (class_of m = List_ -> AsDict m !! "user" = None) ->
  (forall k v, AsDict m !! k = Some v -> truthy_json v = true) ->
  exists m', init (class_of m) (inl <$> AsDict m) = Ok m'
             /\ AsDict m' = AsDict m
             /\ eq__ m' (Inst m) = Ok (Data (JBool true)).
Proof.
  intros Huser Htrue. destruct m as [cls attrs]. cbn [class_of] in *.
  exists (Model cls (init_attrs cls (inl <$> AsDict (Model cls attrs)))).
  assert (AsDict (Model cls (init_attrs cls (inl <$> AsDict (Model cls attrs))))
          = AsDict (Model cls attrs)) as Heq.
  { apply map_eq. intros k.
    rewrite (AsDict_of_init_attrs cls _ _ k eq_refl), lookup_fmap.
    destruct (AsDict (Model cls attrs) !! k) as [v|] eqn:Hv.
    - destruct (AsDict_declared _ _ _ _ Hv) as [d ->]. simpl.
      by rewrite (Htrue k v Hv).
    - by destruct (param_defaults cls !! k). }
  split_and!; [|done|by rewrite eq_instances, Heq, dict_eq_refl].
  destruct (decide (cls = List_)) as [->|Hl];
    [|destruct (decide (cls = UserStatus)) as [->|Hu]; [|by apply init_plain]].
  - unfold init. by rewrite lookup_fmap, Huser.
  - unfold init. rewrite lookup_fmap, AsDict_lookup.
    by assert (param_defaults UserStatus !! "connections" = None) as -> by reflexivity.
Qed.

Lemma AsDict_round_trip_witness :
  exists m', init User (inl <$> AsDict (Model User (init_attrs User (inl <$> user_sample))))
               = Ok m'
             /\ AsDict m' = AsDict (Model User (init_attrs User (inl <$> user_sample)))
             /\ eq__ m' (Inst (Model User (init_attrs User (inl <$> user_sample))))
                = Ok (Data (JBool true)).
Proof.
  pose proof (AsDict_round_trip (Model User (init_attrs User (inl <$> user_sample)))) as H.
  cbn [class_of] in H.
  apply H.
  - intros Hc; inversion Hc.
  - intros k v Hv. apply elem_of_map_to_list in Hv.
    rewrite AsDict_user_sample in Hv. apply list_elem_of_singleton in Hv.
    by injection Hv as _ ->.
Defined.

Lemma init_Status kwargs : init Status kwargs = Ok (Model Status (init_attrs Status kwargs)).
Proof. done. Qed.

Lemma init_attrs_declared cls kwargs k d :
  param_defaults cls !! k = Some d ->
  init_attrs cls kwargs !! k = Some (default d (kwargs !! k)).
Proof. intros H. by rewrite init_attrs_lookup, H. Qed.

Lemma init_attrs_undeclared cls kwargs k :
  param_defaults cls !! k = None -> init_attrs cls kwargs !! k = None.
Proof. intros H. by rewrite init_attrs_lookup, H. Qed.

Lemma Now_after_set time_ m v :
  v <> Data JNull -> Now time_ (Now_setter m v) = (Ok v, Now_setter m v).
Proof.
  intros Hv. destruct m as [cls attrs].
  unfold Now, Now_setter, setattr, getattr. cbn [attrs_of class_of].
  rewrite lookup_insert_eq. by destruct v as [[]|].
Qed.

Lemma Now_after_unset time_ m :
  Now time_ (Now_setter m (Data JNull)) = (Ok time_, Now_setter m time_).
Proof.
  destruct m as [cls attrs].
  unfold Now, Now_setter, setattr, getattr. cbn [attrs_of class_of].
  rewrite lookup_insert_eq. by rewrite insert_insert_eq.
Qed.

(** [Status.Now] on a constructed Status raises AttributeError until the
    setter has been used, since the constructor sets [now] and never
    [_now].  After the setter, the getter returns the value set; after
    setting None it reads the clock once and keeps the reading. *)
Theorem Status_Now (time_ : pyval) (kwargs : gmap string pyval) (m : model) :
  init Status kwargs = Ok m ->
  Now time_ m = (Raise AttributeError, m)
  /\ (forall now, now <> Data JNull ->
        Now time_ (Now_setter m now) = (Ok now, Now_setter m now))
  /\ Now time_ (Now_setter m (Data JNull)) = (Ok time_, Now_setter m time_)
  /\ (time_ <> Data JNull ->
      forall later, Now later (Now_setter m time_) = (Ok time_, Now_setter m time_)).
Proof.
  rewrite init_Status. intros [= <-]. split_and!.
  - unfold Now, getattr. cbn [attrs_of].
    by rewrite (init_attrs_undeclared Status kwargs "_now" eq_refl).
  - intros now Hnow. by apply Now_after_set.
  - apply Now_after_unset.
  - intros Ht later. by apply Now_after_set.
Qed.

Lemma Status_Now_witness :
  Now (Data (JInt 1478217600)) (Model Status (init_attrs Status ∅))
    = (Raise AttributeError, Model Status (init_attrs Status ∅)).
Proof.
  destruct (Status_Now (Data (JInt 1478217600)) ∅ _ (init_Status ∅)) as [H _].
  exact H.
Defined.

(** [repr] of a List constructed without [user] raises AttributeError;
    constructed with a [user] mapping it formats the id, the full name,
    the slug and the screen name of that user. *)
Theorem List_repr_needs_user (kwargs : gmap string pyval) (m : model) :
  init List_ kwargs = Ok m ->
  (kwargs !! "user" = None -> List_repr m = Raise AttributeError)
  /\ (forall d, kwargs !! "user" = Some (Data (JDict d)) ->
        List_repr m =
          Ok (Format "List(ID={list_id}, FullName={full_name}, Slug={slug}, User={user})"
                [kwarg kwargs "id"; kwarg kwargs "full_name"; kwarg kwargs "slug";
                 default (Data JNull) (inl <$> d !! "screen_name")]))
  /\ (is_Some (kwargs !! "user") -> exists d, kwargs !! "user" = Some (Data (JDict d))).
Proof.
  unfold init. intros H. split_and!.
  - intros Hu. rewrite Hu in H. injection H as <-.
    unfold List_repr, getattr. cbn [attrs_of].
    rewrite (init_attrs_declared List_ kwargs "id" (Data JNull) eq_refl),
      (init_attrs_declared List_ kwargs "full_name" (Data JNull) eq_refl),
      (init_attrs_declared List_ kwargs "slug" (Data JNull) eq_refl),
      (init_attrs_declared List_ kwargs "user" (Data JNull) eq_refl), Hu.
    reflexivity.
  - intros d Hu. rewrite Hu in H. cbn [as_kwargs] in H. injection H as <-.
    unfold List_repr, getattr, kwarg. cbn [attrs_of].
    rewrite !lookup_insert_ne by done. rewrite lookup_insert_eq.
    rewrite (init_attrs_declared List_ kwargs "id" (Data JNull) eq_refl),
      (init_attrs_declared List_ kwargs "full_name" (Data JNull) eq_refl),
      (init_attrs_declared List_ kwargs "slug" (Data JNull) eq_refl).
    cbn [attrs_of].
    rewrite (init_attrs_declared User _ "screen_name" (Data JNull) eq_refl).
    by rewrite lookup_fmap.
  - intros [u Hu]. rewrite Hu in H.
    destruct u as [[]|]; cbn [as_kwargs] in H; try discriminate. eauto.
Qed.

(** [repr] of a Status constructed with a false or missing [user] is the
    short form; with a [user] that is decoded JSON and true (such as
    the mapping that the API returns) it raises AttributeError; with an
    instance it needs the [screen_name] of that instance. *)
Theorem Status_repr_user (kwargs : gmap string pyval) (m : model) :
  init Status kwargs = Ok m ->
  (truthy (kwarg kwargs "user") = false ->
     Status_repr m = Ok (Format "Status(ID=%s,  created_at='%s')"
                           [kwarg kwargs "id"; kwarg kwargs "created_at"]))
  /\ (forall j, kwargs !! "user" = Some (Data j) -> truthy_json j = true ->
        Status_repr m = Raise AttributeError)
  /\ (forall u, kwargs !! "user" = Some (Inst u) ->
        Status_repr m =
          match attrs_of u !! "screen_name" with
          | Some sn => Ok (Format "Status(ID=%s, screen_name='%s', created_at='%s')"
                             [kwarg kwargs "id"; sn; kwarg kwargs "created_at"])
          | None => Raise AttributeError
          end).
Proof.
  rewrite init_Status. intros [= <-].
  unfold Status_repr, getattr, kwarg. cbn [attrs_of].
  rewrite (init_attrs_declared Status kwargs "id" (Data JNull) eq_refl),
    (init_attrs_declared Status kwargs "created_at" (Data JNull) eq_refl),
    (init_attrs_declared Status kwargs "user" (Data JNull) eq_refl).
  split_and!.
  - intros ->. reflexivity.
  - intros j -> Hj. cbv [from_option id truthy]. by rewrite Hj.
  - intros u ->. cbv [from_option id truthy].
    by destruct (attrs_of u !! "screen_name").
Qed.

Lemma List_repr_needs_user_witness :
  List_repr (Model List_ (init_attrs List_ ∅)) = Raise AttributeError.
Proof.
  destruct (List_repr_needs_user ∅ _ (init_empty List_)) as [H _].
  apply H. apply lookup_empty.
Defined.

Lemma Status_repr_user_witness :
  Status_repr (Model Status (init_attrs Status
                 {[ "user" := Data (JDict {[ "id" := JInt 1 ]}) ]}))
    = Raise AttributeError.
Proof.
  destruct (Status_repr_user {[ "user" := Data (JDict {[ "id" := JInt 1 ]}) ]} _
              (init_Status _)) as (_ & H & _).
  apply (H (JDict {[ "id" := JInt 1 ]})).
  - apply lookup_singleton_eq.
  - vm_compute. reflexivity.
Defined.

Lemma init_copied cls kwargs m k :
  init cls kwargs = Ok m -> rebuilt cls kwargs k = false ->
  attrs_of m !! k = init_attrs cls kwargs !! k.
Proof.
  intros Hinit Hk.
  destruct (decide (cls = List_)) as [->|Hl];
    [|destruct (decide (cls = UserStatus)) as [->|Hu]].
  - unfold init in Hinit. cbn [rebuilt] in Hk.
    destruct (kwargs !! "user") as [data|] eqn:Hd.
    + destruct (as_kwargs data); [|done]. injection Hinit as <-.
      rewrite andb_true_r in Hk. apply bool_decide_eq_false in Hk.
      cbn [attrs_of]. by rewrite lookup_insert_ne.
    + by injection Hinit as <-.
  - unfold init in Hinit. cbn [rebuilt] in Hk.
    destruct (kwargs !! "connections") as [c|] eqn:Hc.
    + destruct (set_connections c connections _) as [attrs'|] eqn:Hs; [|done].
      injection Hinit as <-.
      rewrite andb_true_r in Hk. apply bool_decide_eq_false in Hk.
      by apply (set_connections_lookup_other _ _ _ _ _ Hs).
    + by injection Hinit as <-.
  - rewrite init_plain in Hinit by done. by injection Hinit as <-.
Qed.

(** The keyword arguments of NewFromJsonDict are written into [data]
    before the constructor is called on it: the caller's dictionary holds
    them afterwards, they take precedence over the entries that [data]
    had, and every declared field that the constructor copies holds the
    keyword argument if there is one, else the entry of [data], else the
    default of the field. *)
Theorem NewFromJsonDict_kwargs (cls : model_class) (data kwargs : gmap string pyval)
    (m : model) :
  fst (NewFromJsonDict cls data kwargs) = Ok m ->
  let data' := snd (NewFromJsonDict cls data kwargs) in
  init cls data' = Ok m
  /\ (forall k v, kwargs !! k = Some v -> data' !! k = Some v)
  /\ (forall k, kwargs !! k = None -> data' !! k = data !! k)
  /\ (forall k d, param_defaults cls !! k = Some d -> rebuilt cls data' k = false ->
        attrs_of m !! k = Some (default (default d (data !! k)) (kwargs !! k))).
Proof.
  unfold NewFromJsonDict. cbn [fst snd]. intros Hinit. cbv zeta.
  split_and!; [done| | |].
  - intros k v Hk. by apply lookup_union_Some_l.
  - intros k Hk. by apply lookup_union_r.
  - intros k d Hd Hr. rewrite (init_copied _ _ _ _ Hinit Hr), init_attrs_lookup, Hd.
    cbn. f_equal. rewrite lookup_union.
    by destruct (kwargs !! k), (data !! k).
Qed.

Lemma NewFromJsonDict_kwargs_witness :
  attrs_of (Model Hashtag (init_attrs Hashtag
              ({[ "text" := Data (JStr "b") ]} ∪ {[ "text" := Data (JStr "a") ]})))
    !! "text"
  = Some (Data (JStr "b")).
Proof.
  destruct (NewFromJsonDict_kwargs Hashtag {[ "text" := Data (JStr "a") ]}
              {[ "text" := Data (JStr "b") ]} _ eq_refl) as (_ & _ & _ & H).
  apply (H "text" (Data JNull)); reflexivity.
Defined.

End ModelsMore.
